(** * go-graphite: the metric model and the delivery client

    A shallow embedding of [graphite/metric.go] and of the client file of the
    [graphite] package (options, [NewClient], [Submit],
    [SubmitMetricsString], [SendMetric]).

    Conventions of the embedding:
    - a Go [string] is a [string] (a sequence of bytes);
    - a Go [int] is a [Z]; the code only compares and prints the option
      values, and its loop counters stay below them, so no wrap-around occurs;
    - [time.Time] is represented by the value of its [Unix()] method;
    - a Go [map[string]string] is a [gmap string string]; the order in which
      [range] visits it is not fixed by the language and is an explicit
      argument, constrained to be a permutation of the entries;
    - a run-time panic is the [Panic] result;
    - [make] panics on a negative size and on a request beyond the limit of
      the allocator; a request within the limit succeeds (running out of
      memory is not modelled). *)

From Stdlib Require Import ZArith String Ascii List Lia.
From stdpp Require Import base gmap strings list pretty.

Local Open Scope string_scope.
Local Open Scope list_scope.
Local Open Scope Z_scope.

(** ** Results of Go calls *)

(** [wrapError] is what [fmt.Errorf] builds for a format with one [%w]: the
    formatted text, and the wrapped operand ([None] when the operand was the
    nil error). *)
#[warnings="-register-all"]
Inductive error : Type :=
| errors_New (text : string)
| wrapError (msg : string) (err : option error).

Definition Error (e : error) : string :=
  match e with
  | errors_New text => text
  | wrapError msg _ => msg
  end.

Definition Unwrap (e : error) : option error :=
  match e with
  | errors_New _ => None
  | wrapError _ err => err
  end.

(** How the verb [%w] prints its operand. *)
Definition verb_w (err : option error) : string :=
  match err with
  | Some e => Error e
  | None => "%!w(<nil>)"
  end.

(** [fmt.Errorf(prefix + "%w", err)]. *)
Definition Errorf_w (prefix : string) (err : option error) : error :=
  wrapError (prefix +:+ verb_w err) err.

Inductive result (A : Type) : Type :=
| Ok (a : A)
| Err (e : error)
| Panic (reason : string).
Arguments Ok {A} a.
Arguments Err {A} e.
Arguments Panic {A} reason.

(** ** Allocation

    [make] refuses a negative size and a request of more than [maxAlloc]
    bytes: 2^48 on the 64-bit platforms the commands are built for.  A string
    takes 16 bytes; a [Metric] (a slice, a map, a string and a [time.Time])
    takes 72; the header of a channel is counted with its buffer.  Memory
    is taken to be available for every request that [make] accepts. *)
Definition maxAlloc : Z := 2 ^ 48.
Definition string_size : Z := 16.
Definition Metric_size : Z := 72.
Definition hchanSize : Z := 96.

(** [make([]string, 0, cap)] does not panic. *)
Definition makeslice_fits (cap : Z) : bool :=
  (0 <=? cap) && (string_size * cap <=? maxAlloc).

(** [make(chan Metric, size)] does not panic. *)
Definition makechan_fits (size : Z) : bool :=
  (0 <=? size) && (Metric_size * size <=? maxAlloc - hchanSize).

(** ** The parts of the Go library the package calls *)

(** [strings.Builder]: the bytes written so far. *)
Definition Builder := string.
Definition WriteString (b : Builder) (s : string) : Builder := b +:+ s.
Definition WriteRune (b : Builder) (r : ascii) : Builder := b +:+ String r "".

(** [fmt.Sprint] of an [int64]: decimal digits, [-] in front of a negative
    number. *)
Definition Sprint (n : Z) : string := pretty n.

Fixpoint Join (elems : list string) (sep : string) : string :=
  match elems with
  | [] => ""
  | [e] => e
  | e :: rest => e +:+ sep +:+ Join rest sep
  end.

(** [len(s) >= len(suffix) && s[len(s)-len(suffix):] == suffix] *)
Definition HasSuffix (s suffix : string) : bool :=
  (String.length suffix <=? String.length s)%nat
  && String.eqb
       (substring (String.length s - String.length suffix)
                  (String.length suffix) s)
       suffix.

(** [strings.ToLower].  A string of ASCII bytes only is lower-cased byte by
    byte: [A]-[Z] are shifted to [a]-[z].  Any other string goes through
    [strings.Map(unicode.ToLower, s)]; the Unicode tables are not part of the
    repository, and that function is the argument [unicode]. *)
Definition lower_byte (c : ascii) : ascii :=
  let n := N_of_ascii c in
  if ((65 <=? n) && (n <=? 90))%N then ascii_of_N (n + 32) else c.

Fixpoint is_ascii (s : string) : bool :=
  match s with
  | EmptyString => true
  | String c rest => (N_of_ascii c <? 128)%N && is_ascii rest
  end.

Fixpoint lower_bytes (s : string) : string :=
  match s with
  | EmptyString => EmptyString
  | String c rest => String (lower_byte c) (lower_bytes rest)
  end.

Definition ToLower (unicode : string → string) (s : string) : string :=
  if is_ascii s then lower_bytes s else unicode s.

(** ** metric.go *)

Record MetricMetadata : Type := {
  Name : list string;
  Tags : gmap string string
}.

Record Metric : Type := {
  Metadata : MetricMetadata;
  Value : string;
  Timestamp : Z
}.

(** The sequences of entries a [range] over [tags] may yield. *)
Definition range_order (tags : gmap string string)
    (order : list (string * string)) : Prop :=
  order ≡ₚ map_to_list tags.

Definition write_segment (b : Builder) (n : string) : Builder :=
  WriteString (WriteRune b ".") n.

Definition write_tag (b : Builder) (kv : string * string) : Builder :=
  WriteString (WriteRune (WriteString (WriteRune b ";") kv.1) "=") kv.2.

(** [Metric.String]; [order] is the sequence in which [range m.Tags] yields
    the entries. *)
Definition Metric_String (order : list (string * string)) (m : Metric)
    : result string :=
  match Name (Metadata m) with
  | [] => Panic "runtime error: index out of range [0] with length 0"
  | n0 :: rest =>
      let metricString := WriteString "" n0 in
      let metricString := fold_left write_segment rest metricString in
      let metricString := fold_left write_tag order metricString in
      let metricString := WriteRune metricString " " in
      let metricString := WriteString metricString (Value m) in
      let metricString := WriteRune metricString " " in
      let metricString := WriteString metricString (Sprint (Timestamp m)) in
      Ok metricString
  end.

(** [line] is a possible value of [m.String()]. *)
Definition serializes (m : Metric) (line : string) : Prop :=
  ∃ order, range_order (Tags (Metadata m)) order
           ∧ Metric_String order m = Ok line.

(** The wire line in the words of the serialization contract: the segments
    joined by dots, one [;key=value] clause per tag, a space, the value, a
    space, the Unix seconds. *)
Definition tag_clause (kv : string * string) : string :=
  ";" +:+ kv.1 +:+ "=" +:+ kv.2.

Fixpoint tag_clauses (order : list (string * string)) : string :=
  match order with
  | [] => ""
  | kv :: rest => tag_clause kv +:+ tag_clauses rest
  end.

Definition wire_line (order : list (string * string)) (m : Metric) : string :=
  Join (Name (Metadata m)) "." +:+ tag_clauses order
  +:+ " " +:+ Value m +:+ " " +:+ Sprint (Timestamp m).

(** ** Slices in memory

    [SubMetric] builds the child's name with [append], whose effect depends on
    the capacity of the parent's slice, so it is embedded over slice headers
    and backing arrays.  [load] reads a metadata value back as the contents
    that [Metric.String] would see at that moment.  The identity of the tag
    map is not tracked: the child's [Tags] field holds the map it was given. *)
Module Mem.

(** A slice header: the backing array, the index of the slice's first element
    in it, the length and the capacity. *)
Record slice : Type := {
  ptr : nat;
  off : nat;
  len : nat;
  cap : nat
}.

(** The backing arrays, by address. *)
Abbreviation heap := (list (list string)).

Definition array (h : heap) (p : nat) : list string := default [] (h !! p).

Definition elems (h : heap) (s : slice) : list string :=
  take (len s) (drop (off s) (array h (ptr s))).

(** The slice lies inside its backing array. *)
Definition wf (h : heap) (s : slice) : Prop :=
  (len s ≤ cap s ∧ off s + cap s ≤ length (array h (ptr s)))%nat.

(** [append(s, x)].  With room left, the element is stored in the backing
    array of [s], just behind its last element.  Otherwise a new array of
    capacity [grow (cap s)] receives a copy; Go only promises that it is large
    enough, so the growth policy is an argument. *)
Definition append (grow : nat → nat) (h : heap) (s : slice) (x : string)
    : heap * slice :=
  if (len s <? cap s)%nat then
    (alter (λ a, <[(off s + len s)%nat := x]> a) (ptr s) h,
     {| ptr := ptr s; off := off s; len := S (len s); cap := cap s |})
  else
    let newcap := grow (cap s) in
    (h ++ [elems h s ++ x :: replicate (newcap - S (len s)) ""],
     {| ptr := length h; off := 0; len := S (len s); cap := newcap |}).

Record MetricMetadata : Type := {
  Name : slice;
  Tags : gmap string string
}.

Definition SubMetric (unicode : string → string) (grow : nat → nat) (h : heap)
    (m : MetricMetadata) (name : string) (tags : gmap string string)
    : heap * MetricMetadata :=
  let '(h', s) := append grow h (Name m) (ToLower unicode name) in
  (h', {| Name := s; Tags := tags |}).

End Mem.

Definition load (h : Mem.heap) (m : Mem.MetricMetadata) : MetricMetadata :=
  {| Name := Mem.elems h (Mem.Name m); Tags := Mem.Tags m |}.

(** ** The client: options and construction *)

Definition DefaultMaxBufferSize : Z := 1000.
Definition DefaultMaxMetricsPerMessage : Z := 1.
Definition DefaultMaxTries : Z := 3.

Definition ErrNoAddress : error :=
  errors_New "graphite: no address specified for Graphite server".

(** A [net.Conn] seen from its write side: the buffers handed to [Write] so
    far, oldest first, and the peer's answer to the next call as a function of
    that history and of the buffer. *)
Record net_Conn : Type := {
  written : list string;
  respond : list string → string → option error
}.

Definition Conn_Write (conn : net_Conn) (b : string)
    : net_Conn * option error :=
  ({| written := written conn ++ [b]; respond := respond conn |},
   respond conn (written conn) b).

Record clientOptions : Type := {
  MaxBufferSize : Z;
  MaxMetricsPerMessage : Z;
  MaxTries : Z;
  Conn : option net_Conn;
  Addr : string
}.

Definition set_MaxBufferSize (v : Z) (c : clientOptions) : clientOptions :=
  {| MaxBufferSize := v; MaxMetricsPerMessage := MaxMetricsPerMessage c;
     MaxTries := MaxTries c; Conn := Conn c; Addr := Addr c |}.

Definition set_MaxMetricsPerMessage (v : Z) (c : clientOptions)
    : clientOptions :=
  {| MaxBufferSize := MaxBufferSize c; MaxMetricsPerMessage := v;
     MaxTries := MaxTries c; Conn := Conn c; Addr := Addr c |}.

Definition set_MaxTries (v : Z) (c : clientOptions) : clientOptions :=
  {| MaxBufferSize := MaxBufferSize c;
     MaxMetricsPerMessage := MaxMetricsPerMessage c;
     MaxTries := v; Conn := Conn c; Addr := Addr c |}.

Definition set_Conn (v : option net_Conn) (c : clientOptions)
    : clientOptions :=
  {| MaxBufferSize := MaxBufferSize c;
     MaxMetricsPerMessage := MaxMetricsPerMessage c;
     MaxTries := MaxTries c; Conn := v; Addr := Addr c |}.

Definition set_Addr (v : string) (c : clientOptions) : clientOptions :=
  {| MaxBufferSize := MaxBufferSize c;
     MaxMetricsPerMessage := MaxMetricsPerMessage c;
     MaxTries := MaxTries c; Conn := Conn c; Addr := v |}.

(** [clientOptions{}] *)
Definition zero_options : clientOptions :=
  {| MaxBufferSize := 0; MaxMetricsPerMessage := 0; MaxTries := 0;
     Conn := None; Addr := "" |}.

(** [func(c *clientOptions)]: the options after the call. *)
Definition ClientOption : Type := clientOptions → clientOptions.

Definition WithMaxBufferSize (maxBufferSize : Z) : ClientOption :=
  set_MaxBufferSize maxBufferSize.
Definition WithMaxMetricsPerMessage (maxMetricsPerMessage : Z) : ClientOption :=
  set_MaxMetricsPerMessage maxMetricsPerMessage.
Definition WithMaxTries (maxTries : Z) : ClientOption :=
  set_MaxTries maxTries.
Definition WithConnection (conn : option net_Conn) : ClientOption :=
  set_Conn conn.
Definition WithAddress (addr : string) : ClientOption :=
  set_Addr addr.

(** [setDefaults] updates the options in place and returns an error or nil:
    the pair of the updated options and the returned error. *)
Definition setDefaults (c : clientOptions) : clientOptions * option error :=
  let c := if MaxBufferSize c =? 0
           then set_MaxBufferSize DefaultMaxBufferSize c else c in
  let c := if MaxMetricsPerMessage c =? 0
           then set_MaxMetricsPerMessage DefaultMaxMetricsPerMessage c
           else c in
  let c := if MaxTries c =? 0 then set_MaxTries DefaultMaxTries c else c in
  match Conn c with
  | None => if String.eqb (Addr c) "" then (c, Some ErrNoAddress)
            else (c, None)
  | Some _ => (c, None)
  end.

(** A buffered channel of [Metric]: the queued elements, oldest first, and
    the capacity.  (A channel of capacity 0 would need a rendezvous with a
    receiver; [NewClient] never makes one, and here a send on it is never
    ready.) *)
Record chan : Type := {
  buf : list Metric;
  chan_cap : Z
}.

(** [make(chan Metric, size)] *)
Definition make_chan (size : Z) : result chan :=
  if negb (makechan_fits size) then Panic "makechan: size out of range"
  else Ok {| buf := []; chan_cap := size |}.

Record client : Type := {
  options : clientOptions;
  queuedMetrics : chan
}.

Definition apply_options (opts : list ClientOption) : clientOptions :=
  fold_left (λ c opt, opt c) opts zero_options.

Definition NewClient (opts : list ClientOption) : result client :=
  let clientOptions := apply_options opts in
  match setDefaults clientOptions with
  | (_, Some err) => Err err
  | (clientOptions, None) =>
      match make_chan (MaxBufferSize clientOptions) with
      | Ok q => Ok {| options := clientOptions; queuedMetrics := q |}
      | Err e => Err e
      | Panic r => Panic r
      end
  end.

(** ** The client at work

    A call that can block either returns or stays blocked; a blocked call has
    changed nothing and is tried again when the shared state has changed.
    Where a [select] finds two cases ready, Go picks one at random: the choice
    is the argument [pick] ([true] takes the channel case). *)

Definition newline : string := String "010"%char "".

Definition has_room (q : chan) : bool :=
  Z.of_nat (length (buf q)) <? chan_cap q.

Definition push (m : Metric) (q : chan) : chan :=
  {| buf := buf q ++ [m]; chan_cap := chan_cap q |}.

Definition set_queue (q : chan) (c : client) : client :=
  {| options := options c; queuedMetrics := q |}.

Definition set_conn (conn : net_Conn) (c : client) : client :=
  {| options := set_Conn (Some conn) (options c);
     queuedMetrics := queuedMetrics c |}.

Inductive sent : Type :=
| SendReturns (err : option error)
| SendBlocks.

(** [ctx] is [Some e] once the context is done, [e] being [ctx.Err()]. *)
Definition SendMetric (pick : bool) (ctx : option error) (c : client)
    (metric : MetricMetadata) (value : string) (timestamp : Z)
    : client * sent :=
  let queuedMetric :=
    {| Metadata := metric; Value := value; Timestamp := timestamp |} in
  match has_room (queuedMetrics c), ctx with
  | true, None =>
      (set_queue (push queuedMetric (queuedMetrics c)) c, SendReturns None)
  | true, Some e =>
      if pick
      then (set_queue (push queuedMetric (queuedMetrics c)) c,
            SendReturns None)
      else (c, SendReturns (Some e))
  | false, Some e => (c, SendReturns (Some e))
  | false, None => (c, SendBlocks)
  end.

Inductive loop_exit : Type :=
| ReturnedNil
| FellThrough (err : option error).

(** The loop of [SubmitMetricsString], [tries] iterations from now; [err] is
    the named result, which holds the error of the latest [Write]. *)
Fixpoint write_loop (tries : nat) (conn : net_Conn) (str : string)
    (err : option error) : net_Conn * loop_exit :=
  match tries with
  | O => (conn, FellThrough err)
  | S n =>
      let '(conn', err) := Conn_Write conn str in
      match err with
      | None => (conn', ReturnedNil)
      | Some _ => write_loop n conn' str err
      end
  end.

Definition terminate_line (str : string) : string :=
  if HasSuffix str newline then str else str +:+ newline.

Definition tries_error (maxTries : Z) (err : option error) : error :=
  Errorf_w ("graphite: failed to send metrics after " +:+ Sprint maxTries
            +:+ " tries: ") err.

Definition SubmitMetricsString (c : client) (str : string)
    : client * result unit :=
  let str := terminate_line str in
  let tries := Z.to_nat (MaxTries (options c)) in
  match Conn (options c) with
  | None =>
      match tries with
      | O => (c, Err (tries_error (MaxTries (options c)) None))
      | S _ => (c, Panic "runtime error: invalid memory address or nil pointer dereference")
      end
  | Some conn =>
      match write_loop tries conn str None with
      | (conn', ReturnedNil) => (set_conn conn' c, Ok tt)
      | (conn', FellThrough err) =>
          (set_conn conn' c, Err (tries_error (MaxTries (options c)) err))
      end
  end.

(** What the goroutines share: the context and the client's queue and
    connection. *)
Record world : Type := {
  ctx : option error;
  cl : client
}.

(** What the other goroutines do between two steps of [Submit]: producers
    call [SendMetric], and the context may be cancelled. *)
Inductive env_event : Type :=
| Produce (pick : bool) (metric : MetricMetadata) (value : string)
    (timestamp : Z)
| Cancel (err : error).

Definition env_step (w : world) (ev : env_event) : world :=
  match ev with
  | Produce pick metric value timestamp =>
      {| ctx := ctx w;
         cl := (SendMetric pick (ctx w) (cl w) metric value timestamp).1 |}
  | Cancel err =>
      match ctx w with
      | None => {| ctx := Some err; cl := cl w |}
      | Some _ => w
      end
  end.

Definition env_steps (evs : list env_event) (w : world) : world :=
  fold_left env_step evs w.

(** One iteration of the loop of [Submit] runs against a schedule, indexed by
    the [select] statements it executes (0 for the blocking one): what the
    environment did just before, which ready case is picked, and the order in
    which the tags of the received metric are visited. *)
Record schedule : Type := {
  events : nat → list env_event;
  picks : nat → bool;
  orders : nat → gmap string string → list (string * string)
}.

Definition fair_orders (s : schedule) : Prop :=
  ∀ i tags, range_order tags (orders s i tags).

Definition quiet (s : schedule) : Prop := ∀ i, events s i = [].

Inductive received : Type :=
| Received (metric : Metric) (q : chan)
| Done (err : error)
| NotReady.

(** The cases [metric := <-c.queuedMetrics] and [<-ctx.Done()]. *)
Definition select_recv (pick : bool) (ctx : option error) (q : chan)
    : received :=
  match buf q, ctx with
  | m :: rest, None => Received m {| buf := rest; chan_cap := chan_cap q |}
  | m :: rest, Some e =>
      if pick then Received m {| buf := rest; chan_cap := chan_cap q |}
      else Done e
  | [], Some e => Done e
  | [], None => NotReady
  end.

Inductive flow (A : Type) : Type :=
| Next (a : A)
| Blocked
| Return (err : error)
| Panicked (reason : string).
Arguments Next {A} a.
Arguments Blocked {A}.
Arguments Return {A} err.
Arguments Panicked {A} reason.

Definition cancelled_error (e : error) : error :=
  Errorf_w "graphite: context cancelled while submitting: " (Some e).

Definition with_queue (q : chan) (w : world) : world :=
  {| ctx := ctx w; cl := set_queue q (cl w) |}.

(** [metricStrings = append(metricStrings, metric.String())] *)
Definition append_String (s : schedule) (i : nat) (metric : Metric)
    (metricStrings : list string) : flow (list string) :=
  match Metric_String (orders s i (Tags (Metadata metric))) metric with
  | Ok line => Next (metricStrings ++ [line])
  | Err e => Return e
  | Panic reason => Panicked reason
  end.

(** The inner loop, [n] iterations from now, [i] being its counter. *)
Fixpoint further_metrics (s : schedule) (n i : nat) (w : world)
    (metricStrings : list string) : world * flow (list string) :=
  match n with
  | O => (w, Next metricStrings)
  | S n' =>
      let w := env_steps (events s i) w in
      match select_recv (picks s i) (ctx w) (queuedMetrics (cl w)) with
      | Received metric q =>
          match append_String s i metric metricStrings with
          | Next metricStrings =>
              further_metrics s n' (S i) (with_queue q w) metricStrings
          | other => (with_queue q w, other)
          end
      | Done e => (w, Return (cancelled_error e))
      | NotReady => (w, Next metricStrings)
      end
  end.

(** The first part of an iteration: from [make] to the end of the inner
    loop. *)
Definition collect (s : schedule) (w : world) : world * flow (list string) :=
  let N := MaxMetricsPerMessage (options (cl w)) in
  if negb (makeslice_fits N)
  then (w, Panicked "runtime error: makeslice: cap out of range")
  else
    let w := env_steps (events s 0%nat) w in
    match select_recv (picks s 0%nat) (ctx w) (queuedMetrics (cl w)) with
    | Received metric q =>
        match append_String s 0 metric [] with
        | Next metricStrings =>
            further_metrics s (Z.to_nat (N - 1)) 1 (with_queue q w)
              metricStrings
        | other => (with_queue q w, other)
        end
    | Done e => (w, Return (cancelled_error e))
    | NotReady => (w, Blocked)
    end.

Definition submit_error (err : error) : error :=
  Errorf_w "graphite: failed to submit metrics: " (Some err).

(** One iteration of the loop of [Submit]. *)
Definition Submit_iteration (s : schedule) (w : world) : world * flow unit :=
  match collect s w with
  | (w, Next metricStrings) =>
      match SubmitMetricsString (cl w) (Join metricStrings newline) with
      | (c, Ok _) => ({| ctx := ctx w; cl := c |}, Next tt)
      | (c, Err err) => ({| ctx := ctx w; cl := c |}, Return (submit_error err))
      | (c, Panic reason) => ({| ctx := ctx w; cl := c |}, Panicked reason)
      end
  | (w, Blocked) => (w, Blocked)
  | (w, Return err) => (w, Return err)
  | (w, Panicked reason) => (w, Panicked reason)
  end.

(** The loop of [Submit], for at most [n] iterations, the first of which is
    number [j]; [Next tt] says that the loop is still running. *)
Fixpoint Submit_loop (n j : nat) (s : nat → schedule) (w : world)
    : world * flow unit :=
  match n with
  | O => (w, Next tt)
  | S n' =>
      match Submit_iteration (s j) w with
      | (w', Next _) => Submit_loop n' (S j) s w'
      | stopped => stopped
      end
  end.

(** [Submit].  At entry it starts the goroutine that copies what the peer
    sends to standard error.  On a connection that goroutine only reads; on
    the nil connection its read panics, which ends the program. *)
Definition Submit (n j : nat) (s : nat → schedule) (w : world)
    : world * flow unit :=
  match Conn (options (cl w)) with
  | None =>
      (w, Panicked
            "runtime error: invalid memory address or nil pointer dereference")
  | Some _ => Submit_loop n j s w
  end.

(** ** Vocabulary of the statements about writing *)

(** The connection after [k] more calls of [Write] with the buffer [msg]. *)
Definition wrote (conn : net_Conn) (k : nat) (msg : string) : net_Conn :=
  {| written := written conn ++ replicate k msg; respond := respond conn |}.

(** The answer to the attempt number [j] (from 0) of writing [msg] again and
    again on [conn]. *)
Definition attempt (conn : net_Conn) (msg : string) (j : nat)
    : option error :=
  respond conn (written conn ++ replicate j msg) msg.

(** ** Vocabulary of the statements about batches *)

Definition named (m : Metric) : Prop := Name (Metadata m) ≠ [].

Definition queue (w : world) : list Metric := buf (queuedMetrics (cl w)).

(** ** Inputs used in the examples *)

Definition cpu_idle : MetricMetadata :=
  {| Name := ["cpu"; "idle"]; Tags := {[ "host" := "a" ]} |}.

Definition sample (value : string) : Metric :=
  {| Metadata := cpu_idle; Value := value; Timestamp := 1700000000 |}.

Definition two_tags : Metric :=
  {| Metadata := {| Name := ["n"];
                    Tags := <[ "a" := "1" ]> {[ "b" := "2" ]} |};
     Value := "v"; Timestamp := 0 |}.

Definition no_name : Metric :=
  {| Metadata := {| Name := []; Tags := ∅ |};
     Value := "1"; Timestamp := 1700000000 |}.

(** A connection whose writes all succeed. *)
Definition healthy : net_Conn := {| written := []; respond := λ _ _, None |}.

(** A client with an empty queue of capacity 10 and a healthy connection. *)
Definition idle_client : client :=
  {| options := {| MaxBufferSize := 10; MaxMetricsPerMessage := 2;
                   MaxTries := 1; Conn := Some healthy; Addr := "" |};
     queuedMetrics := {| buf := []; chan_cap := 10 |} |}.

(** A connection whose writes all fail. *)
Definition broken : net_Conn :=
  {| written := []; respond := λ _ _, Some (errors_New "broken pipe") |}.

Definition broken_client : client :=
  {| options := {| MaxBufferSize := 10; MaxMetricsPerMessage := 2;
                   MaxTries := 2; Conn := Some broken; Addr := "" |};
     queuedMetrics := {| buf := []; chan_cap := 10 |} |}.

(** Nothing happens around the loop, and every [range] follows the order of
    [map_to_list]. *)
Definition calm : schedule :=
  {| events := λ _, []; picks := λ _, true;
     orders := λ _ tags, map_to_list tags |}.

Definition three_queued : world :=
  {| ctx := None;
     cl := set_queue {| buf := [sample "1"; sample "2"; sample "3"];
                        chan_cap := 10 |} idle_client |}.

(** The scenario: buffer 10, batch 2, one try, on the connection [conn]. *)
Definition scenario_options (conn : net_Conn) : list ClientOption :=
  [WithMaxBufferSize 10; WithMaxMetricsPerMessage 2; WithMaxTries 1;
   WithConnection (Some conn)].

Definition scenario_client (conn : net_Conn) (q : list Metric) : client :=
  {| options := {| MaxBufferSize := 10; MaxMetricsPerMessage := 2;
                   MaxTries := 1; Conn := Some conn; Addr := "" |};
     queuedMetrics := {| buf := q; chan_cap := 10 |} |}.

Definition scenario_message : string :=
  "cpu.idle;host=a 1 1700000000" +:+ newline
  +:+ "cpu.idle;host=a 2 1700000000" +:+ newline.

(** The parent of [cmd/perf]: [{"gopsutil", "cpu"}] extended by ["cpu0"],
    which left one free slot in the new backing array. *)
Definition cpu0_heap : Mem.heap := [["gopsutil"; "cpu"; "cpu0"; ""]].

Definition cpu0 : Mem.MetricMetadata :=
  {| Mem.Name := {| Mem.ptr := 0; Mem.off := 0; Mem.len := 3; Mem.cap := 4 |};
     Mem.Tags := ∅ |}.

(** [context.Canceled] *)
Definition context_Canceled : error := errors_New "context canceled".

(** ** The commands: flags and lines

    More of the Go library, as the commands use it: [strings.Split] and
    [strings.SplitN] with a separator of one byte, and [strings.CutPrefix]. *)

Fixpoint contains_byte (c : ascii) (s : string) : bool :=
  match s with
  | EmptyString => false
  | String a rest => Ascii.eqb a c || contains_byte c rest
  end.

(** [strings.Split(s, sep)] for a separator of one byte: the pieces between
    the occurrences of the separator, one more than there are occurrences. *)
Fixpoint Split (s : string) (sep : ascii) : list string :=
  match s with
  | EmptyString => [""]
  | String a rest =>
      if Ascii.eqb a sep then "" :: Split rest sep
      else match Split rest sep with
           | piece :: pieces => String a piece :: pieces
           | [] => [String a ""]
           end
  end.

(** The text before and after the first occurrence of [sep], if any. *)
Fixpoint cut_byte (s : string) (sep : ascii) : option (string * string) :=
  match s with
  | EmptyString => None
  | String a rest =>
      if Ascii.eqb a sep then Some ("", rest)
      else match cut_byte rest sep with
           | Some (before, after) => Some (String a before, after)
           | None => None
           end
  end.

(** [strings.SplitN(s, sep, 2)] for a separator of one byte. *)
Definition SplitN_2 (s : string) (sep : ascii) : list string :=
  match cut_byte s sep with
  | Some (before, after) => [before; after]
  | None => [s]
  end.

Definition invalid_tag (tag : string) : error :=
  errors_New ("cmd/cpu: invalid tag: '" +:+ tag
              +:+ "', expected 'name=value'").

(** The loop over the tags of the [tags] flag, in [cpu] and [reportCPU]. *)
Fixpoint tags_loop (tags : list string) (tagsMap : gmap string string)
    : result (gmap string string) :=
  match tags with
  | [] => Ok tagsMap
  | tag :: rest =>
      match SplitN_2 tag "=" with
      | [name; value] => tags_loop rest (<[name := value]> tagsMap)
      | _ => Err (invalid_tag tag)
      end
  end.

(** From [tagsMap := make(map[string]string)] to the end of the loop. *)
Definition parse_tags (tagsString : string) : result (gmap string string) :=
  if String.eqb tagsString "" then Ok ∅
  else tags_loop (Split tagsString ",") ∅.

(** [strings.CutPrefix] *)
Definition CutPrefix (s prefix : string) : string * bool :=
  if String.prefix prefix s
  then (substring (String.length prefix)
          (String.length s - String.length prefix) s, true)
  else (s, false).

Definition ErrLineNotFound : error := errors_New "line with prefix not found".

(** [fmt.Errorf("%w: %s", ErrLineNotFound, prefix)] *)
Definition line_not_found (prefix : string) : error :=
  wrapError (Error ErrLineNotFound +:+ ": " +:+ prefix) (Some ErrLineNotFound).

Fixpoint parseLine (prefix : string) (lines : list string) : result string :=
  match lines with
  | [] => Err (line_not_found prefix)
  | line :: rest =>
      let '(trimmedLine, found) := CutPrefix line prefix in
      if found then Ok trimmedLine else parseLine prefix rest
  end.

(** ** Vocabulary of the further statements *)

(** The queue holds no more than the capacity of the channel. *)
Definition within_capacity (c : client) : Prop :=
  Z.of_nat (length (buf (queuedMetrics c))) ≤ chan_cap (queuedMetrics c).

(** The tags flag that lists the given pairs. *)
Definition tags_flag (pairs : list (string * string)) : string :=
  Join (map (λ kv, kv.1 +:+ "=" +:+ kv.2) pairs) ",".

(** The map after the assignments [tagsMap[name] = value], in order. *)
Definition assign_all (pairs : list (string * string))
    (tagsMap : gmap string string) : gmap string string :=
  fold_left (λ m kv, <[kv.1 := kv.2]> m) pairs tagsMap.

(** The lower bound Go sets on the capacity of the array [append] makes. *)
Definition grows (grow : nat → nat) : Prop := ∀ c, (c < grow c)%nat.

(** The text ends with a byte that is not the line feed. *)
Definition open_ended (line : string) : Prop :=
  ∃ pre d, line = pre +:+ String d "" ∧ d ≠ "010"%char.

(** [line] begins with [prefix]. *)
Definition starts_with (prefix line : string) : Prop :=
  ∃ rest, line = prefix +:+ rest.

(** What the [tags] flag asks of a pair it lists: no [=] or comma in the
    name, no comma in the value. *)
Definition listable (kv : string * string) : Prop :=
  contains_byte "=" kv.1 = false ∧ contains_byte "," kv.1 = false
  ∧ contains_byte "," kv.2 = false.

(** The bytes that a sequence of written buffers puts on the connection. *)
Definition stream (msgs : list string) : string := foldr String.append "" msgs.

(** The lines, each followed by a line feed. *)
Definition framed (lines : list string) : string :=
  stream (map (λ line, line +:+ newline) lines).

(** Every call of [Write] on the connection succeeds. *)
Definition reliable (conn : net_Conn) : Prop :=
  ∀ history b, respond conn history b = None.

(** The largest capacities that [make] accepts for the batch and for the
    queue. *)
Definition maxSliceCap : Z := maxAlloc / string_size.
Definition maxChanCap : Z := (maxAlloc - hchanSize) / Metric_size.

(** ** Vocabulary of the statements about construction *)

(** An option as a caller writes it. *)
Inductive supplied : Type :=
| MaxBufferSize_of (maxBufferSize : Z)
| MaxMetricsPerMessage_of (maxMetricsPerMessage : Z)
| MaxTries_of (maxTries : Z)
| Connection_of (conn : option net_Conn)
| Address_of (addr : string).

Definition option_of (o : supplied) : ClientOption :=
  match o with
  | MaxBufferSize_of v => WithMaxBufferSize v
  | MaxMetricsPerMessage_of v => WithMaxMetricsPerMessage v
  | MaxTries_of v => WithMaxTries v
  | Connection_of conn => WithConnection conn
  | Address_of addr => WithAddress addr
  end.

Definition buffer_size_of (o : supplied) : option Z :=
  match o with MaxBufferSize_of v => Some v | _ => None end.
Definition batch_of (o : supplied) : option Z :=
  match o with MaxMetricsPerMessage_of v => Some v | _ => None end.
Definition tries_of (o : supplied) : option Z :=
  match o with MaxTries_of v => Some v | _ => None end.
Definition connection_of (o : supplied) : option (option net_Conn) :=
  match o with Connection_of conn => Some conn | _ => None end.
Definition address_of (o : supplied) : option string :=
  match o with Address_of addr => Some addr | _ => None end.

(** What is supplied for a setting: the value of the last option for it, and
    [zero] when no option is for it. *)
Definition last_supplied {A} (setting : supplied → option A) (zero : A)
    (l : list supplied) : A :=
  default zero (last (omap setting l)).

(** What [NewClient] returns for a batch size of -1 on a healthy
    connection. *)
Definition negative_batch_client : client :=
  {| options := {| MaxBufferSize := 1000; MaxMetricsPerMessage := -1;
                   MaxTries := 3; Conn := Some healthy; Addr := "" |};
     queuedMetrics := {| buf := []; chan_cap := 1000 |} |}.

(** * Properties *)

(** ** Allocation *)

Lemma makeslice_fits_true (cap : Z) :
  makeslice_fits cap = true ↔ 0 ≤ cap ≤ maxSliceCap.
Proof.
  unfold makeslice_fits, maxSliceCap, string_size, maxAlloc.
  change (2 ^ 48) with 281474976710656.
  change (281474976710656 / 16) with 17592186044416.
  rewrite andb_true_iff, Z.leb_le, Z.leb_le. lia.
Qed.

Lemma makechan_fits_true (size : Z) :
  makechan_fits size = true ↔ 0 ≤ size ≤ maxChanCap.
Proof.
  unfold makechan_fits, maxChanCap, Metric_size, hchanSize, maxAlloc.
  change (2 ^ 48) with 281474976710656.
  change ((281474976710656 - 96) / 72) with 3909374676535.
  rewrite andb_true_iff, Z.leb_le, Z.leb_le. lia.
Qed.

Lemma makeslice_fits_in (cap : Z) :
  0 ≤ cap ≤ maxSliceCap → negb (makeslice_fits cap) = false.
Proof. intros H%makeslice_fits_true. by rewrite H. Qed.

Lemma makeslice_fits_out (cap : Z) :
  cap < 0 ∨ maxSliceCap < cap → negb (makeslice_fits cap) = true.
Proof.
  intros H. destruct (makeslice_fits cap) eqn:Hfits; [|done].
  apply makeslice_fits_true in Hfits. lia.
Qed.

Lemma makechan_fits_in (size : Z) :
  0 ≤ size ≤ maxChanCap → negb (makechan_fits size) = false.
Proof. intros H%makechan_fits_true. by rewrite H. Qed.

Lemma makechan_fits_out (size : Z) :
  size < 0 ∨ maxChanCap < size → negb (makechan_fits size) = true.
Proof.
  intros H. destruct (makechan_fits size) eqn:Hfits; [|done].
  apply makechan_fits_true in Hfits. lia.
Qed.

Lemma maxSliceCap_value : maxSliceCap = 17592186044416.
Proof. reflexivity. Qed.

Lemma maxChanCap_value : maxChanCap = 3909374676535.
Proof. reflexivity. Qed.

(** ** Strings *)

Lemma app_String (a : ascii) (s t : string) :
  String a s +:+ t = String a (s +:+ t).
Proof. reflexivity. Qed.

Lemma app_empty_l (t : string) : "" +:+ t = t.
Proof. reflexivity. Qed.

Lemma app_empty_r (s : string) : s +:+ "" = s.
Proof. induction s as [|a s IH]; [done|]. by rewrite app_String, IH. Qed.

Lemma app_assoc_s (s t u : string) : (s +:+ t) +:+ u = s +:+ (t +:+ u).
Proof.
  induction s as [|a s IH]; [done|]. by rewrite !app_String, IH.
Qed.

Lemma length_app_s (s t : string) :
  String.length (s +:+ t) = (String.length s + String.length t)%nat.
Proof.
  induction s as [|a s IH]; [done|]. rewrite app_String. simpl. by rewrite IH.
Qed.

(** A string that ends with a byte other than the line feed does not have the
    line feed as a suffix. *)
Lemma HasSuffix_newline_last (p : string) (d : ascii) :
  d ≠ "010"%char → HasSuffix (p +:+ String d "") newline = false.
Proof.
  intros Hd. unfold HasSuffix, newline.
  rewrite length_app_s. simpl String.length.
  replace (String.length p + 1 - 1)%nat with (String.length p) by lia.
  assert (substring (String.length p) 1 (p +:+ String d "") = String d "")
    as ->.
  { induction p as [|a p IH]; [done|]. rewrite app_String. simpl. apply IH. }
  apply andb_false_intro2, String.eqb_neq. congruence.
Qed.

Lemma HasSuffix_newline_app (p : string) :
  HasSuffix (p +:+ newline) newline = true.
Proof.
  unfold HasSuffix, newline.
  rewrite length_app_s. simpl String.length.
  replace (String.length p + 1 - 1)%nat with (String.length p) by lia.
  assert (substring (String.length p) 1 (p +:+ String "010" "")
          = String "010" "") as ->.
  { induction p as [|a p IH]; [done|]. rewrite app_String. simpl. apply IH. }
  apply andb_true_intro. split; [apply Nat.leb_le; lia | done].
Qed.

(** ** Decimal output *)

Lemma pretty_N_go_app (x : N) (s : string) :
  ∃ pre, pretty_N_go x s = pre +:+ s.
Proof.
  revert s. induction (N.lt_wf_0 x) as [x _ IH]. intros s.
  destruct (decide (x = 0)%N) as [->|Hx].
  - exists "". by rewrite pretty_N_go_0.
  - rewrite pretty_N_go_step by lia.
    destruct (IH (x `div` 10)%N) with
      (s := String (pretty_N_char (x `mod` 10)) s) as [pre Hpre].
    { apply N.div_lt; lia. }
    exists (pre +:+ String (pretty_N_char (x `mod` 10)) "").
    by rewrite Hpre, app_assoc_s.
Qed.

Lemma pretty_N_char_not_newline (x : N) : pretty_N_char x ≠ "010"%char.
Proof. unfold pretty_N_char. by repeat case_match. Qed.

(** The text of an integer ends with a digit. *)
Lemma Sprint_last (n : Z) :
  ∃ pre d, Sprint n = pre +:+ String d "" ∧ d ≠ "010"%char.
Proof.
  assert (∀ x : N, ∃ pre d,
            pretty x = pre +:+ String d "" ∧ d ≠ "010"%char) as HN.
  { intros x. unfold pretty, pretty_N. case_decide as Hx.
    - by exists "", "0"%char.
    - rewrite pretty_N_go_step by lia.
      destruct (pretty_N_go_app (x `div` 10)
                  (String (pretty_N_char (x `mod` 10)) "")) as [pre ->].
      eauto using pretty_N_char_not_newline. }
  unfold Sprint, pretty, pretty_Z. destruct n as [|p|p].
  - by exists "", "0"%char.
  - apply HN.
  - destruct (HN (Npos p)) as (pre & d & Hp & Hd).
    exists ("-" +:+ pre), d. split; [|done].
    unfold pretty, pretty_positive. by rewrite Hp, app_assoc_s.
Qed.

(** ** Serialization *)

Lemma fold_write_segment (rest : list string) (b : Builder) (n0 : string) :
  fold_left write_segment rest (b +:+ n0) = b +:+ Join (n0 :: rest) ".".
Proof.
  revert b n0. induction rest as [|n1 rest IH]; intros b n0; [done|].
  cbn [fold_left]. unfold write_segment at 2, WriteString, WriteRune.
  rewrite IH. cbn [Join]. destruct rest; by rewrite !app_assoc_s.
Qed.

Lemma fold_write_tag (order : list (string * string)) (b : Builder) :
  fold_left write_tag order b = b +:+ tag_clauses order.
Proof.
  revert b. induction order as [|kv order IH]; intros b.
  - by rewrite app_empty_r.
  - cbn [fold_left tag_clauses]. rewrite IH.
    unfold write_tag, tag_clause, WriteString, WriteRune.
    by rewrite !app_assoc_s.
Qed.

Lemma Metric_String_wire_line (order : list (string * string)) (m : Metric) :
  Name (Metadata m) ≠ [] → Metric_String order m = Ok (wire_line order m).
Proof.
  intros Hname. unfold Metric_String, wire_line.
  destruct (Name (Metadata m)) as [|n0 rest]; [done|].
  unfold WriteString, WriteRune.
  rewrite fold_write_segment, fold_write_tag.
  by rewrite !app_empty_l, !app_assoc_s.
Qed.

Lemma wire_line_no_newline (order : list (string * string)) (m : Metric) :
  HasSuffix (wire_line order m) newline = false.
Proof.
  unfold wire_line.
  destruct (Sprint_last (Timestamp m)) as (pre & d & -> & Hd).
  rewrite <-!app_assoc_s. by apply HasSuffix_newline_last.
Qed.

(** Lists with at most one element have a single arrangement. *)
Lemma Permutation_short {A} (l k : list A) :
  (length k ≤ 1)%nat → l ≡ₚ k → l = k.
Proof.
  intros Hlen Hp. destruct k as [|x [|y k]]; simpl in Hlen; [| |lia].
  - by apply Permutation_nil_r.
  - by apply Permutation_singleton_r.
Qed.

(** C5.  For every Metric with a non-empty name sequence, the serialized line
    is the name segments joined by dots, then one [;key=value] clause for each
    tag in the order of the iteration, then a space, the value, a space and
    the decimal Unix seconds; no serialization ends with a line feed. *)
Theorem Metric_String_contract (m : Metric) :
  Name (Metadata m) ≠ [] →
  (∀ order, range_order (Tags (Metadata m)) order →
            Metric_String order m = Ok (wire_line order m))
  ∧ (∀ line, serializes m line → HasSuffix line newline = false).
Proof.
  intros Hname. split.
  - intros order _. by apply Metric_String_wire_line.
  - intros line (order & _ & Hline).
    rewrite Metric_String_wire_line in Hline by done.
    injection Hline as <-. apply wire_line_no_newline.
Qed.

Lemma Metric_String_contract_witness :
  Metric_String [("host", "a")] (sample "1")
  = Ok "cpu.idle;host=a 1 1700000000".
Proof.
  apply (proj1 (Metric_String_contract (sample "1") ltac:(discriminate))).
  unfold range_order. vm_compute. reflexivity.
Defined.

(** C9.  [Metric.String] reads the first name segment unconditionally: on a
    Metric with an empty name sequence it panics with an index out of range,
    and on every other Metric it returns a line. *)
Theorem Metric_String_needs_name (order : list (string * string))
    (m : Metric) :
  (Name (Metadata m) = [] →
   Metric_String order m = Panic "runtime error: index out of range [0] with length 0")
  ∧ (Name (Metadata m) ≠ [] → ∃ line, Metric_String order m = Ok line).
Proof.
  split; intros Hname.
  - unfold Metric_String. by rewrite Hname.
  - exists (wire_line order m). by apply Metric_String_wire_line.
Qed.

Lemma Metric_String_needs_name_witness :
  Metric_String [] no_name = Panic "runtime error: index out of range [0] with length 0".
Proof.
  apply (proj1 (Metric_String_needs_name [] no_name)). reflexivity.
Defined.

(** C2, as stated, fails: a Metric with the tags [a] and [b] has two
    serializations, and the second one does not list the tags by key. *)
Lemma serialization_order_not_fixed :
  serializes two_tags "n;a=1;b=2 v 0"
  ∧ serializes two_tags "n;b=2;a=1 v 0"
  ∧ "n;a=1;b=2 v 0" ≠ "n;b=2;a=1 v 0".
Proof.
  assert (map_to_list (Tags (Metadata two_tags)) ≡ₚ [("a", "1"); ("b", "2")])
    as Hp.
  { unfold two_tags; simpl.
    rewrite map_to_list_insert by done. by rewrite map_to_list_singleton. }
  split; [|split; [|done]].
  - exists [("a", "1"); ("b", "2")]. split; [by unfold range_order|done].
  - exists [("b", "2"); ("a", "1")]. split; [|done].
    unfold range_order. rewrite Hp. apply Permutation_swap.
Qed.

(** C2, amended.  The serializations of a Metric are the wire lines of the
    arrangements of its tag entries, in the order in which the iteration
    over the map yields them; nothing sorts them by key.  Every serialization
    is the wire line of such an arrangement, and for a Metric with a name
    every arrangement gives a serialization.  With at most one tag the
    serialization is unique: two serializations are identical, and are the
    wire line of the entries as they stand. *)
Theorem serialization_up_to_tag_order (m : Metric) :
  (∀ line, serializes m line →
     ∃ order, order ≡ₚ map_to_list (Tags (Metadata m))
              ∧ line = wire_line order m)
  ∧ (named m →
     ∀ order, order ≡ₚ map_to_list (Tags (Metadata m)) →
       serializes m (wire_line order m))
  ∧ ((size (Tags (Metadata m)) ≤ 1)%nat →
     ∀ l1 l2, serializes m l1 → serializes m l2 →
       l1 = l2 ∧ l1 = wire_line (map_to_list (Tags (Metadata m))) m).
Proof.
  assert (∀ line, serializes m line →
            ∃ order, order ≡ₚ map_to_list (Tags (Metadata m))
                     ∧ line = wire_line order m) as Hlines.
  { intros line (order & Ho & Hline). exists order. split; [done|].
    destruct (Name (Metadata m)) as [|n0 rest] eqn:Hname.
    - unfold Metric_String in Hline. by rewrite Hname in Hline.
    - rewrite Metric_String_wire_line in Hline by (by rewrite Hname).
      by injection Hline. }
  split; [done|]. split.
  - intros Hname order Ho. exists order. split; [done|].
    by apply Metric_String_wire_line.
  - intros Hsize l1 l2 (o1 & Ho1 & ->)%Hlines (o2 & Ho2 & ->)%Hlines.
    rewrite <-length_map_to_list in Hsize.
    apply (Permutation_short _ _ Hsize) in Ho1, Ho2. by subst.
Qed.

Lemma serialization_up_to_tag_order_witness :
  serializes (sample "1") "cpu.idle;host=a 1 1700000000"
  ∧ ∀ line, serializes (sample "1") line
            → line = "cpu.idle;host=a 1 1700000000".
Proof.
  assert (map_to_list (Tags (Metadata (sample "1"))) = [("host", "a")])
    as Htags by (vm_compute; reflexivity).
  assert (size (Tags (Metadata (sample "1"))) ≤ 1)%nat as Hsize
    by (vm_compute; lia).
  assert (named (sample "1")) as Hname by discriminate.
  split.
  - refine (proj1 (proj2 (serialization_up_to_tag_order (sample "1")))
              Hname [("host", "a")] _).
    by rewrite Htags.
  - intros line Hline.
    destruct (proj2 (proj2 (serialization_up_to_tag_order (sample "1")))
                Hsize line line Hline Hline) as [_ ->].
    rewrite Htags. reflexivity.
Defined.

(** ** Construction *)

Lemma setDefaults_fields (o : clientOptions) :
  let o' := (setDefaults o).1 in
  MaxBufferSize o'
  = (if MaxBufferSize o =? 0 then DefaultMaxBufferSize else MaxBufferSize o)
  ∧ MaxMetricsPerMessage o'
    = (if MaxMetricsPerMessage o =? 0 then DefaultMaxMetricsPerMessage
       else MaxMetricsPerMessage o)
  ∧ MaxTries o' = (if MaxTries o =? 0 then DefaultMaxTries else MaxTries o)
  ∧ Conn o' = Conn o ∧ Addr o' = Addr o.
Proof.
  destruct o as [b n t conn a]. unfold setDefaults. simpl.
  destruct (b =? 0); simpl; destruct (n =? 0); simpl;
    destruct (t =? 0); simpl; destruct conn; simpl;
    try destruct (String.eqb a ""); done.
Qed.

Lemma setDefaults_error (o : clientOptions) :
  (setDefaults o).2
  = match Conn o with
    | Some _ => None
    | None => if String.eqb (Addr o) "" then Some ErrNoAddress else None
    end.
Proof.
  destruct o as [b n t conn a]. unfold setDefaults. simpl.
  destruct (b =? 0); simpl; destruct (n =? 0); simpl;
    destruct (t =? 0); simpl; destruct conn; simpl;
    try destruct (String.eqb a ""); done.
Qed.

Lemma NewClient_unfold (opts : list ClientOption) :
  NewClient opts
  = match (setDefaults (apply_options opts)).2 with
    | Some err => Err err
    | None =>
        if negb (makechan_fits
                   (MaxBufferSize (setDefaults (apply_options opts)).1))
        then Panic "makechan: size out of range"
        else Ok {| options := (setDefaults (apply_options opts)).1;
                   queuedMetrics :=
                     {| buf := [];
                        chan_cap :=
                          MaxBufferSize (setDefaults (apply_options opts)).1 |}
                |}
    end.
Proof.
  unfold NewClient, make_chan.
  destruct (setDefaults (apply_options opts)) as [o [e|]]; simpl; [done|].
  by destruct (negb (makechan_fits (MaxBufferSize o))).
Qed.

Lemma last_supplied_snoc {A} (setting : supplied → option A) (zero : A)
    (l : list supplied) (o : supplied) :
  last_supplied setting zero (l ++ [o])
  = match setting o with
    | Some v => v
    | None => last_supplied setting zero l
    end.
Proof.
  unfold last_supplied. rewrite omap_app. simpl.
  destruct (setting o) as [v|]; simpl.
  - by rewrite last_snoc.
  - by rewrite app_nil_r.
Qed.

Lemma apply_options_supplied (l : list supplied) :
  let given := apply_options (map option_of l) in
  MaxBufferSize given = last_supplied buffer_size_of 0 l
  ∧ MaxMetricsPerMessage given = last_supplied batch_of 0 l
  ∧ MaxTries given = last_supplied tries_of 0 l
  ∧ Conn given = last_supplied connection_of None l
  ∧ Addr given = last_supplied address_of "" l.
Proof.
  induction l as [|o l IH] using rev_ind; [done|].
  unfold apply_options in *. rewrite map_app, fold_left_app. simpl in *.
  rewrite !last_supplied_snoc. destruct IH as (Hb & Hn & Ht & Hc & Ha).
  by destruct o.
Qed.

(** What [NewClient] does with the options once they are applied, whatever
    functions they are. *)
Lemma NewClient_given (opts : list ClientOption) :
  let given := apply_options opts in
  (NewClient opts = Err ErrNoAddress ↔ Conn given = None ∧ Addr given = "")
  ∧ (∀ e, NewClient opts = Err e → e = ErrNoAddress)
  ∧ (∀ c, NewClient opts = Ok c →
       (MaxBufferSize given = 0 → MaxBufferSize (options c) = 1000)
       ∧ (MaxBufferSize given ≠ 0 →
          MaxBufferSize (options c) = MaxBufferSize given)
       ∧ (MaxMetricsPerMessage given = 0 →
          MaxMetricsPerMessage (options c) = 1)
       ∧ (MaxMetricsPerMessage given ≠ 0 →
          MaxMetricsPerMessage (options c) = MaxMetricsPerMessage given)
       ∧ (MaxTries given = 0 → MaxTries (options c) = 3)
       ∧ (MaxTries given ≠ 0 → MaxTries (options c) = MaxTries given)
       ∧ Conn (options c) = Conn given
       ∧ Addr (options c) = Addr given)
  ∧ ((Conn given ≠ None ∨ Addr given ≠ "") →
     0 ≤ MaxBufferSize given ≤ maxChanCap →
     ∃ c, NewClient opts = Ok c).
Proof.
  intros given. rewrite NewClient_unfold. fold given.
  pose proof (setDefaults_fields given) as (Hb & Hn & Ht & Hc & Ha).
  rewrite setDefaults_error.
  assert (∀ c, Ok {| options := (setDefaults given).1;
                     queuedMetrics :=
                       {| buf := [];
                          chan_cap := MaxBufferSize (setDefaults given).1 |}
                  |} = Ok c →
       (MaxBufferSize given = 0 → MaxBufferSize (options c) = 1000)
       ∧ (MaxBufferSize given ≠ 0 →
          MaxBufferSize (options c) = MaxBufferSize given)
       ∧ (MaxMetricsPerMessage given = 0 →
          MaxMetricsPerMessage (options c) = 1)
       ∧ (MaxMetricsPerMessage given ≠ 0 →
          MaxMetricsPerMessage (options c) = MaxMetricsPerMessage given)
       ∧ (MaxTries given = 0 → MaxTries (options c) = 3)
       ∧ (MaxTries given ≠ 0 → MaxTries (options c) = MaxTries given)
       ∧ Conn (options c) = Conn given
       ∧ Addr (options c) = Addr given)
    as Hok.
  { intros c [= <-]. simpl. rewrite Hb, Hn, Ht.
    unfold DefaultMaxBufferSize, DefaultMaxMetricsPerMessage, DefaultMaxTries.
    repeat split; try done; intros H0;
      first [by rewrite H0 | by apply Z.eqb_neq in H0; rewrite H0]. }
  assert (0 ≤ MaxBufferSize given ≤ maxChanCap →
          negb (makechan_fits (MaxBufferSize (setDefaults given).1)) = false)
    as Hfits.
  { intros Hrange. apply makechan_fits_in. rewrite Hb, maxChanCap_value.
    rewrite maxChanCap_value in Hrange. unfold DefaultMaxBufferSize.
    destruct (Z.eqb_spec (MaxBufferSize given) 0); lia. }
  destruct (negb (makechan_fits (MaxBufferSize (setDefaults given).1)))
    eqn:Hneg;
    (destruct (Conn given) as [conn|] eqn:Hconn;
     [|destruct (String.eqb_spec (Addr given) "") as [Haddr|Haddr]]);
    (split; [split|split; [|split]]); try done; try (by intros [? ?]);
    try (by intros e [= <-]); try (by intros [?|?]);
    try (by intros _ Hr; specialize (Hfits Hr));
    try (by intros _ _; eexists).
Qed.

(** C8.  The options are those a caller can write, and what is supplied for
    a setting is the value of the last option for it, or the zero value.
    [NewClient] returns the configuration error exactly when neither a
    connection nor an address is supplied, and it returns no other error.
    When it returns a client, each limit supplied as 0 or not supplied holds
    its default (1000, 1, 3), each limit supplied with another value holds
    that value, and the connection and the address are the supplied ones.
    It does return a client when a connection or an address is supplied and
    the buffer size is one that [make] accepts. *)
Theorem NewClient_contract (l : list supplied) :
  let opts := map option_of l in
  let bufferSize := last_supplied buffer_size_of 0 l in
  let batch := last_supplied batch_of 0 l in
  let tries := last_supplied tries_of 0 l in
  let conn := last_supplied connection_of None l in
  let addr := last_supplied address_of "" l in
  (NewClient opts = Err ErrNoAddress ↔ conn = None ∧ addr = "")
  ∧ (∀ e, NewClient opts = Err e → e = ErrNoAddress)
  ∧ (∀ c, NewClient opts = Ok c →
       (bufferSize = 0 → MaxBufferSize (options c) = 1000)
       ∧ (bufferSize ≠ 0 → MaxBufferSize (options c) = bufferSize)
       ∧ (batch = 0 → MaxMetricsPerMessage (options c) = 1)
       ∧ (batch ≠ 0 → MaxMetricsPerMessage (options c) = batch)
       ∧ (tries = 0 → MaxTries (options c) = 3)
       ∧ (tries ≠ 0 → MaxTries (options c) = tries)
       ∧ Conn (options c) = conn
       ∧ Addr (options c) = addr)
  ∧ ((conn ≠ None ∨ addr ≠ "") →
     0 ≤ bufferSize ≤ maxChanCap →
     ∃ c, NewClient opts = Ok c).
Proof.
  intros opts bufferSize batch tries conn addr.
  pose proof (NewClient_given opts) as H. simpl in H.
  pose proof (apply_options_supplied l) as (Hb & Hn & Ht & Hc & Ha).
  fold opts in Hb, Hn, Ht, Hc, Ha.
  fold bufferSize in Hb. fold batch in Hn. fold tries in Ht.
  fold conn in Hc. fold addr in Ha.
  by rewrite Hb, Hn, Ht, Hc, Ha in H.
Qed.

Lemma NewClient_contract_witness :
  ∃ c, NewClient [WithConnection (Some healthy); WithMaxTries 5] = Ok c
       ∧ MaxBufferSize (options c) = 1000
       ∧ MaxMetricsPerMessage (options c) = 1
       ∧ MaxTries (options c) = 5
       ∧ Conn (options c) = Some healthy.
Proof.
  destruct (NewClient_contract [Connection_of (Some healthy); MaxTries_of 5])
    as (_ & _ & Hok & Hex).
  destruct Hex as [c Hc].
  - left. discriminate.
  - change (0 ≤ 0 ≤ maxChanCap). rewrite maxChanCap_value. lia.
  - exists c. split; [exact Hc|].
    destruct (Hok c Hc) as (Hb & _ & Hn & _ & _ & Ht & Hconn & _).
    repeat split; [by apply Hb|by apply Hn|by apply Ht|exact Hconn].
Defined.

(** C10.  [setDefaults] replaces nothing but the value 0: a negative limit is
    kept as it is.  With a negative buffer size, and a connection or an
    address given, [NewClient] panics in [make]. *)
Theorem negative_options_kept (opts : list ClientOption) :
  let given := apply_options opts in
  (MaxBufferSize given < 0 →
   MaxBufferSize (setDefaults given).1 = MaxBufferSize given)
  ∧ (MaxMetricsPerMessage given < 0 →
     MaxMetricsPerMessage (setDefaults given).1 = MaxMetricsPerMessage given)
  ∧ (MaxTries given < 0 → MaxTries (setDefaults given).1 = MaxTries given)
  ∧ (MaxBufferSize given < 0 →
     (Conn given ≠ None ∨ Addr given ≠ "") →
     NewClient opts = Panic "makechan: size out of range").
Proof.
  intros given.
  pose proof (setDefaults_fields given) as (Hb & Hn & Ht & _).
  repeat split.
  - intros H. rewrite Hb. destruct (Z.eqb_spec (MaxBufferSize given) 0); lia.
  - intros H. rewrite Hn.
    destruct (Z.eqb_spec (MaxMetricsPerMessage given) 0); lia.
  - intros H. rewrite Ht. destruct (Z.eqb_spec (MaxTries given) 0); lia.
  - intros H Hdest. rewrite NewClient_unfold, setDefaults_error. fold given.
    assert (negb (makechan_fits (MaxBufferSize (setDefaults given).1)) = true)
      as ->.
    { apply makechan_fits_out. left. rewrite Hb.
      destruct (Z.eqb_spec (MaxBufferSize given) 0); lia. }
    destruct (Conn given); [done|].
    destruct (String.eqb_spec (Addr given) ""); [|done]. by destruct Hdest.
Qed.

Lemma negative_options_kept_witness :
  NewClient [WithMaxBufferSize (-1); WithConnection (Some healthy)]
  = Panic "makechan: size out of range".
Proof.
  apply (negative_options_kept
           [WithMaxBufferSize (-1); WithConnection (Some healthy)]).
  - reflexivity.
  - left. discriminate.
Defined.

(** ** Enqueueing *)

(** C7, as stated, fails: with a context that is already done and a free
    slot in the queue, both cases of the [select] are ready, and the call may
    put the sample in the queue and return nil. *)
Lemma SendMetric_after_cancel_may_enqueue :
  SendMetric true (Some context_Canceled) idle_client cpu_idle "1" 1700000000
  = (set_queue {| buf := [sample "1"]; chan_cap := 10 |} idle_client,
     SendReturns None).
Proof. reflexivity. Qed.

(** C7, amended.  [SendMetric] returns nil exactly when it has put the sample
    at the end of the queue.  When it returns an error, that error is the
    context's and the client is unchanged, so no call both enqueues and
    returns an error.  When the context is done and the queue has no free
    slot, or the [select] takes the context's case, it returns the context's
    error and leaves the client unchanged. *)
Theorem SendMetric_contract (pick : bool) (ctx : option error) (c c' : client)
    (metric : MetricMetadata) (value : string) (timestamp : Z) (r : sent) :
  SendMetric pick ctx c metric value timestamp = (c', r) →
  let queuedMetric :=
    {| Metadata := metric; Value := value; Timestamp := timestamp |} in
  (r = SendReturns None
   ↔ buf (queuedMetrics c') = buf (queuedMetrics c) ++ [queuedMetric])
  ∧ (∀ e, r = SendReturns (Some e) → ctx = Some e ∧ c' = c)
  ∧ (∀ e, ctx = Some e →
          has_room (queuedMetrics c) = false ∨ pick = false →
          r = SendReturns (Some e) ∧ c' = c).
Proof.
  intros Hsend queuedMetric. unfold SendMetric in Hsend.
  fold queuedMetric in Hsend.
  assert (buf (queuedMetrics c)
          ≠ buf (queuedMetrics c) ++ [queuedMetric]) as Hne.
  { intros Heq%(f_equal length). rewrite length_app in Heq. simpl in Heq.
    lia. }
  destruct (has_room (queuedMetrics c)), ctx as [e0|], pick;
    injection Hsend as <- <-; simpl;
    (split; [split; [done|]|split]); try done;
    try (intros ? [= <-]; done);
    try (intros ? [= <-] [?|?]; done).
Qed.

Lemma SendMetric_contract_witness :
  buf (queuedMetrics
         (SendMetric true None idle_client cpu_idle "1" 1700000000).1)
  = buf (queuedMetrics idle_client) ++ [sample "1"].
Proof.
  apply (proj1 (SendMetric_contract true None idle_client
                  (SendMetric true None idle_client cpu_idle "1"
                     1700000000).1
                  cpu_idle "1" 1700000000 (SendReturns None) eq_refl)).
  reflexivity.
Defined.

(** ** Writing a batch *)

Lemma terminate_line_ends (str : string) :
  HasSuffix (terminate_line str) newline = true.
Proof.
  unfold terminate_line. destruct (HasSuffix str newline) eqn:H; [done|].
  apply HasSuffix_newline_app.
Qed.

Section Retry.

(** The buffer that is written again and again. *)
Variable msg : string.

Lemma wrote_0 (conn : net_Conn) : wrote conn 0 msg = conn.
Proof. destruct conn. unfold wrote. simpl. by rewrite app_nil_r. Qed.

Lemma wrote_S (conn : net_Conn) (k : nat) :
  wrote (Conn_Write conn msg).1 k msg = wrote conn (S k) msg.
Proof. unfold wrote, Conn_Write. simpl. by rewrite <-app_assoc. Qed.

Lemma attempt_S (conn : net_Conn) (j : nat) :
  attempt (Conn_Write conn msg).1 msg j = attempt conn msg (S j).
Proof. unfold attempt, Conn_Write. simpl. by rewrite <-app_assoc. Qed.

Lemma attempt_0 (conn : net_Conn) :
  (Conn_Write conn msg).2 = attempt conn msg 0.
Proof. unfold attempt, Conn_Write. simpl. by rewrite app_nil_r. Qed.

(** Name the connection after one call of [Write] and restate the facts
    about later attempts in terms of it. *)
Ltac one_write conn HS HA :=
  let conn' := fresh "conn'" in
  let e := fresh "e" in
  let Hw := fresh "Hw" in
  let H0 := fresh "H0" in
  destruct (Conn_Write conn msg) as [conn' e] eqn:Hw;
  pose proof (attempt_0 conn) as H0;
  pose proof (wrote_S conn) as HS;
  pose proof (attempt_S conn) as HA;
  rewrite Hw in H0, HS, HA; simpl in H0, HS, HA; subst e.

Lemma write_loop_succeeds (k : nat) :
  ∀ (n : nat) (conn : net_Conn) (err : option error),
    (k < n)%nat →
    (∀ j, (j < k)%nat → attempt conn msg j ≠ None) →
    attempt conn msg k = None →
    write_loop n conn msg err = (wrote conn (S k) msg, ReturnedNil).
Proof.
  induction k as [|k IH]; intros n conn err Hk Hfail Hok;
    (destruct n as [|n]; [lia|]); cbn [write_loop]; one_write conn HS HA.
  - rewrite Hok. by rewrite <-HS, wrote_0.
  - destruct (attempt conn msg 0) eqn:Hfirst;
      [|by destruct (Hfail 0%nat); [lia|]].
    rewrite <-HS. apply IH; [lia| |by rewrite HA].
    intros j Hj. rewrite HA. apply Hfail. lia.
Qed.

Lemma write_loop_exhausted (n : nat) :
  ∀ (conn : net_Conn) (err : option error),
    (∀ j, (j < n)%nat → attempt conn msg j ≠ None) →
    write_loop n conn msg err
    = (wrote conn n msg,
       FellThrough (match n with
                    | O => err
                    | S n' => attempt conn msg n'
                    end)).
Proof.
  induction n as [|n IH]; intros conn err Hfail; cbn [write_loop].
  - by rewrite wrote_0.
  - one_write conn HS HA.
    destruct (attempt conn msg 0) eqn:Hfirst;
      [|by destruct (Hfail 0%nat); [lia|]].
    rewrite IH, HS.
    + f_equal. destruct n as [|n]; [by rewrite Hfirst|by rewrite HA].
    + intros j Hj. rewrite HA. apply Hfail. lia.
Qed.

End Retry.

Lemma SendMetric_options (pick : bool) (ctx : option error) (c : client)
    (metric : MetricMetadata) (value : string) (timestamp : Z) :
  options (SendMetric pick ctx c metric value timestamp).1 = options c.
Proof.
  unfold SendMetric. by destruct (has_room (queuedMetrics c)), ctx, pick.
Qed.

Lemma env_steps_options (evs : list env_event) (w : world) :
  options (cl (env_steps evs w)) = options (cl w).
Proof.
  revert w. induction evs as [|ev evs IH]; intros w; [done|].
  cbn [env_steps fold_left]. rewrite IH.
  destruct ev as [pick metric value timestamp|err]; simpl.
  - apply SendMetric_options.
  - by destruct (ctx w).
Qed.

Lemma further_metrics_options (s : schedule) (n : nat) :
  ∀ (i : nat) (w : world) (acc : list string),
    options (cl (further_metrics s n i w acc).1) = options (cl w).
Proof.
  induction n as [|n IH]; intros i w acc; cbn [further_metrics]; [done|].
  pose proof (env_steps_options (events s i) w) as Henv.
  destruct (select_recv _ _ _) as [m q|e|]; [|done..].
  destruct (append_String s i m acc); simpl; [by rewrite IH|done..].
Qed.

Lemma collect_options (s : schedule) (w : world) :
  options (cl (collect s w).1) = options (cl w).
Proof.
  unfold collect. destruct (negb _); [done|].
  pose proof (env_steps_options (events s 0%nat) w) as Henv.
  destruct (select_recv _ _ _) as [m q|e|]; [|done..].
  destruct (append_String s 0 m []); simpl;
    [by rewrite further_metrics_options|done..].
Qed.

Lemma Submit_loop_stops (n j : nat) (s : nat → schedule) (w w' : world)
    (err : error) :
  Submit_iteration (s j) w = (w', Return err) →
  Submit_loop (S n) j s w = (w', Return err).
Proof. intros H. cbn [Submit_loop]. by rewrite H. Qed.

Lemma Submit_stops (n j : nat) (s : nat → schedule) (w w' : world)
    (err : error) :
  Conn (options (cl w)) ≠ None →
  Submit_iteration (s j) w = (w', Return err) →
  Submit (S n) j s w = (w', Return err).
Proof.
  intros Hconn H. unfold Submit.
  destruct (Conn (options (cl w))); [|done]. by apply Submit_loop_stops.
Qed.

(** With [MaxTries] below 1 the loop body never runs: nothing is written, and
    the error wraps the nil error. *)
Lemma SubmitMetricsString_no_tries (c : client) (str : string) :
  MaxTries (options c) ≤ 0 →
  SubmitMetricsString c str
  = (match Conn (options c) with Some conn => set_conn conn c | None => c end,
     Err (tries_error (MaxTries (options c)) None)).
Proof.
  intros H. unfold SubmitMetricsString.
  replace (Z.to_nat (MaxTries (options c))) with 0%nat by lia.
  by destruct (Conn (options c)).
Qed.

(** C3.  Let the client have a connection and let [msg] be the batch with its
    final line feed.  If the attempt number [k], among the first [MaxTries],
    is the first to succeed, [SubmitMetricsString] returns nil after exactly
    [k+1] calls of [Write].  If [MaxTries] is at least 1 and all [MaxTries]
    attempts fail, it returns, after exactly [MaxTries] calls of [Write], an
    error that wraps the error of the last call and whose text gives
    [MaxTries]; an iteration of [Submit] that formed this batch then makes
    [Submit] return that error, wrapped once more, whatever number of
    iterations it was still allowed, with the queue as the batch formation
    left it and no further call of [Write]. *)
Theorem SubmitMetricsString_retry (c : client) (conn : net_Conn)
    (str : string) :
  Conn (options c) = Some conn →
  let msg := terminate_line str in
  let tries := MaxTries (options c) in
  (∀ k : nat,
     Z.of_nat k < tries →
     (∀ j, (j < k)%nat → attempt conn msg j ≠ None) →
     attempt conn msg k = None →
     SubmitMetricsString c str = (set_conn (wrote conn (S k) msg) c, Ok tt))
  ∧ (1 ≤ tries →
     (∀ j : nat, Z.of_nat j < tries → attempt conn msg j ≠ None) →
     ∃ last,
       attempt conn msg (Z.to_nat tries - 1) = Some last
       ∧ SubmitMetricsString c str
         = (set_conn (wrote conn (Z.to_nat tries) msg) c,
            Err (tries_error tries (Some last)))
       ∧ Unwrap (tries_error tries (Some last)) = Some last
       ∧ Error (tries_error tries (Some last))
         = ("graphite: failed to send metrics after " +:+ Sprint tries
            +:+ " tries: ") +:+ Error last
       ∧ (∀ (n j : nat) (s : nat → schedule) (w w1 : world)
            (metricStrings : list string),
            collect (s j) w = (w1, Next metricStrings) →
            cl w1 = c →
            Join metricStrings newline = str →
            Submit (S n) j s w
            = ({| ctx := ctx w1;
                  cl := set_conn (wrote conn (Z.to_nat tries) msg) c |},
               Return (submit_error (tries_error tries (Some last)))))).
Proof.
  intros Hconn msg tries. split.
  - intros k Hk Hfail Hok. unfold SubmitMetricsString. rewrite Hconn.
    fold msg tries.
    by rewrite (write_loop_succeeds msg k) by (done || lia).
  - intros Htries Hfail.
    assert (∃ n', Z.to_nat tries = S n') as [n' Hn'].
    { exists (Z.to_nat tries - 1)%nat. lia. }
    destruct (attempt conn msg n') as [last|] eqn:Hlast;
      [|by destruct (Hfail n'); [lia|]].
    assert (SubmitMetricsString c str
            = (set_conn (wrote conn (Z.to_nat tries) msg) c,
               Err (tries_error tries (Some last)))) as Hsubmit.
    { unfold SubmitMetricsString. rewrite Hconn. fold msg tries.
      rewrite write_loop_exhausted by (intros j Hj; apply Hfail; lia).
      rewrite Hn'. by rewrite Hlast. }
    exists last. split; [|split; [done|split; [done|split; [done|]]]].
    { by replace (Z.to_nat tries - 1)%nat with n' by lia. }
    intros n j s w w1 metricStrings Hcollect Hcl Hjoin.
    apply Submit_stops.
    { rewrite <-(collect_options (s j) w), Hcollect. simpl.
      by rewrite Hcl, Hconn. }
    unfold Submit_iteration. by rewrite Hcollect, Hcl, Hjoin, Hsubmit.
Qed.

Lemma SubmitMetricsString_retry_witness :
  ∃ last,
    SubmitMetricsString broken_client "x"
    = (set_conn (wrote broken 2 (terminate_line "x")) broken_client,
       Err (tries_error 2 (Some last))).
Proof.
  destruct (proj2 (SubmitMetricsString_retry broken_client broken "x"
                     eq_refl))
    as (last & _ & Hsubmit & _).
  - simpl. lia.
  - intros j _. discriminate.
  - exists last. exact Hsubmit.
Defined.

(** ** Forming a batch *)

Lemma select_recv_Done (pick : bool) (ctx : option error) (q : chan)
    (e : error) :
  select_recv pick ctx q = Done e → ctx = Some e.
Proof.
  unfold select_recv. destruct (buf q), ctx, pick; intros [=]; by subst.
Qed.

Lemma select_recv_NotReady (pick : bool) (ctx : option error) (q : chan) :
  select_recv pick ctx q = NotReady ↔ buf q = [] ∧ ctx = None.
Proof.
  unfold select_recv. destruct (buf q), ctx, pick; split;
    (intros [=] || intros [[=] [=]]); done.
Qed.

Lemma select_recv_ready (pick : bool) (q : chan) (m : Metric)
    (rest : list Metric) :
  buf q = m :: rest →
  select_recv pick None q = Received m {| buf := rest; chan_cap := chan_cap q |}.
Proof. unfold select_recv. by intros ->. Qed.

Lemma append_String_cases (s : schedule) (i : nat) (m : Metric)
    (acc : list string) :
  (∃ line, append_String s i m acc = Next (acc ++ [line]))
  ∨ (∃ reason, append_String s i m acc = Panicked reason).
Proof.
  unfold append_String, Metric_String.
  destruct (Name (Metadata m)); eauto.
Qed.

Lemma append_String_named (s : schedule) (i : nat) (m : Metric)
    (acc : list string) :
  named m → ∃ line, append_String s i m acc = Next (acc ++ [line]).
Proof.
  intros Hm. unfold append_String.
  rewrite Metric_String_wire_line by done. eauto.
Qed.

Lemma further_metrics_bounds (s : schedule) (n : nat) :
  ∀ (i : nat) (w : world) (acc : list string) (w' : world)
    (r : flow (list string)),
    further_metrics s n i w acc = (w', r) →
    match r with
    | Next metricStrings =>
        (length acc ≤ length metricStrings ≤ length acc + n)%nat
    | Blocked => False
    | Return err => ∃ e, ctx w' = Some e ∧ err = cancelled_error e
    | Panicked _ => True
    end.
Proof.
  induction n as [|n IH]; intros i w acc w' r; cbn [further_metrics].
  { intros [= <- <-]. lia. }
  set (w1 := env_steps (events s i) w).
  destruct (select_recv (picks s i) (ctx w1) (queuedMetrics (cl w1)))
    as [m q|e|] eqn:Hsel.
  - destruct (append_String_cases s i m acc) as [[line ->]|[reason ->]].
    + intros Hrec. apply IH in Hrec. rewrite length_app in Hrec. simpl in Hrec.
      destruct r; try done. lia.
    + by intros [= <- <-].
  - intros [= <- <-]. apply select_recv_Done in Hsel. eauto.
  - intros [= <- <-]. lia.
Qed.

Lemma append_String_fair (s : schedule) (i : nat) (m : Metric)
    (acc : list string) :
  fair_orders s → named m →
  ∃ line, append_String s i m acc = Next (acc ++ [line]) ∧ serializes m line.
Proof.
  intros Hfair Hm. exists (wire_line (orders s i (Tags (Metadata m))) m).
  unfold append_String. rewrite Metric_String_wire_line by done.
  split; [done|]. exists (orders s i (Tags (Metadata m))).
  split; [apply Hfair|by apply Metric_String_wire_line].
Qed.

(** With no interference, no cancellation and a name on every queued sample,
    the inner loop takes the samples that are already queued, up to its
    number of iterations, and nothing else. *)
Lemma further_metrics_calm (s : schedule) (n : nat) :
  quiet s → fair_orders s →
  ∀ (i : nat) (w : world) (acc : list string),
    ctx w = None →
    Forall named (queue w) →
    ∃ w' lines,
      further_metrics s n i w acc = (w', Next (acc ++ lines))
      ∧ length lines = Nat.min n (length (queue w))
      ∧ Forall2 serializes (take (length lines) (queue w)) lines
      ∧ queue w' = drop (length lines) (queue w)
      ∧ ctx w' = None
      ∧ options (cl w') = options (cl w).
Proof.
  intros Hquiet Hfair. induction n as [|n IH]; intros i w acc Hctx Hnamed.
  { exists w, []. cbn [further_metrics]. rewrite app_nil_r. simpl.
    repeat split; (done || constructor). }
  cbn [further_metrics]. rewrite Hquiet. cbn [env_steps fold_left].
  rewrite Hctx. unfold queue in *.
  destruct (buf (queuedMetrics (cl w))) as [|m rest] eqn:Hbuf.
  - exists w, []. unfold select_recv. rewrite Hbuf, app_nil_r. simpl.
    repeat split; (done || constructor).
  - rewrite (select_recv_ready _ _ m rest) by done.
    apply Forall_cons in Hnamed as [Hm Hrest].
    destruct (append_String_fair s i m acc Hfair Hm) as (line & -> & Hline).
    destruct (IH (S i)
                (with_queue {| buf := rest;
                               chan_cap := chan_cap (queuedMetrics (cl w)) |}
                   w)
                (acc ++ [line]))
      as (w' & lines & Hrun & Hlen & Hser & Hq & Hc & Ho); [done..|].
    exists w', (line :: lines). simpl in Hlen, Hser, Hq, Ho.
    rewrite Hrun, <-app_assoc. simpl.
    repeat split; try done; [lia|by constructor].
Qed.

Lemma env_steps_quiet (s : schedule) (i : nat) (w : world) :
  quiet s → env_steps (events s i) w = w.
Proof. intros Hquiet. by rewrite Hquiet. Qed.

Lemma collect_calm (s : schedule) (w : world) :
  quiet s → fair_orders s →
  1 ≤ MaxMetricsPerMessage (options (cl w)) ≤ maxSliceCap →
  ctx w = None →
  Forall named (queue w) →
  queue w ≠ [] →
  ∃ w' lines,
    collect s w = (w', Next lines)
    ∧ length lines
      = Nat.min (Z.to_nat (MaxMetricsPerMessage (options (cl w))))
                (length (queue w))
    ∧ Forall2 serializes (take (length lines) (queue w)) lines
    ∧ queue w' = drop (length lines) (queue w)
    ∧ ctx w' = None
    ∧ options (cl w') = options (cl w).
Proof.
  intros Hquiet Hfair HN Hctx Hnamed Hne. unfold collect.
  rewrite makeslice_fits_in by lia.
  rewrite env_steps_quiet by done. rewrite Hctx. unfold queue in *.
  destruct (buf (queuedMetrics (cl w))) as [|m rest] eqn:Hbuf; [done|].
  rewrite (select_recv_ready _ _ m rest) by done.
  apply Forall_cons in Hnamed as [Hm Hrest].
  destruct (append_String_fair s 0 m [] Hfair Hm) as (line & -> & Hline).
  destruct (further_metrics_calm s
              (Z.to_nat (MaxMetricsPerMessage (options (cl w)) - 1))
              Hquiet Hfair 1
              (with_queue {| buf := rest;
                             chan_cap := chan_cap (queuedMetrics (cl w)) |}
                 w)
              ([] ++ [line]))
    as (w' & lines & Hrun & Hlen & Hser & Hq & Hc & Ho); [done..|].
  exists w', (line :: lines). unfold queue in Hlen, Hser, Hq.
  simpl in Hrun, Hlen, Hser, Hq, Ho. simpl. rewrite Hrun.
  repeat split; try done; [lia|by constructor].
Qed.

(** A [MaxMetricsPerMessage] that is negative, or beyond what [make]
    accepts, makes the iteration panic in [make], before it looks at the
    queue. *)
Lemma collect_out_of_range (s : schedule) (w : world) :
  MaxMetricsPerMessage (options (cl w)) < 0
  ∨ maxSliceCap < MaxMetricsPerMessage (options (cl w)) →
  collect s w = (w, Panicked "runtime error: makeslice: cap out of range").
Proof. intros H. unfold collect. by rewrite makeslice_fits_out. Qed.

(** C6, as stated, fails: [NewClient] keeps a negative
    [MaxMetricsPerMessage], and with it an iteration panics in [make] with a
    sample waiting in the queue: it neither blocks, nor returns a
    cancellation error, nor forms a batch. *)
Lemma collect_panics_on_negative_batch_size :
  NewClient [WithMaxMetricsPerMessage (-1); WithConnection (Some healthy)]
  = Ok negative_batch_client
  ∧ collect calm
      {| ctx := None;
         cl := (SendMetric true None negative_batch_client cpu_idle "1"
                  1700000000).1 |}
    = ({| ctx := None;
          cl := (SendMetric true None negative_batch_client cpu_idle "1"
                   1700000000).1 |},
       Panicked "runtime error: makeslice: cap out of range").
Proof. split; reflexivity. Qed.

(** C6, amended.  Let [MaxMetricsPerMessage] be [N] and take any queue,
    context and schedule.  When [N] is negative or beyond what [make]
    accepts, the iteration panics in [make] and changes nothing.  When [N] is
    at least 1 and within that limit: the batch formation blocks exactly
    when, at its first [select], the queue is empty and the context is not
    done, and then it has changed nothing.  The only error it returns is the cancellation
    error of a context that is done.  A batch it forms holds at least one
    line and at most [N].  Left alone, with a context that is not done and
    named samples in a non-empty queue, it forms the batch of the first
    [min N (length queue)] samples, in order, and leaves the others queued:
    it does not wait for the batch to fill. *)
Theorem collect_batch (s : schedule) (w w' : world)
    (r : flow (list string)) :
  let N := MaxMetricsPerMessage (options (cl w)) in
  collect s w = (w', r) →
  let w0 := env_steps (events s 0%nat) w in
  (N < 0 ∨ maxSliceCap < N →
   r = Panicked "runtime error: makeslice: cap out of range" ∧ w' = w)
  ∧ (1 ≤ N ≤ maxSliceCap →
  (r = Blocked ↔ queue w0 = [] ∧ ctx w0 = None)
  ∧ (r = Blocked → w' = w0)
  ∧ (∀ metricStrings, r = Next metricStrings →
       (1 ≤ length metricStrings)%nat ∧ Z.of_nat (length metricStrings) ≤ N)
  ∧ (∀ err, r = Return err → ∃ e, ctx w' = Some e ∧ err = cancelled_error e)
  ∧ (quiet s → fair_orders s → ctx w = None → Forall named (queue w) →
     queue w ≠ [] →
     ∃ metricStrings,
       r = Next metricStrings
       ∧ length metricStrings = Nat.min (Z.to_nat N) (length (queue w))
       ∧ Forall2 serializes (take (length metricStrings) (queue w))
           metricStrings
       ∧ queue w' = drop (length metricStrings) (queue w))).
Proof.
  intros N Hcollect w0. split.
  { intros Hout. rewrite collect_out_of_range in Hcollect by done.
    by injection Hcollect as <- <-. }
  intros HN.
  split; [|split; [|split; [|split]]]; cycle 4.
  { intros Hquiet Hfair Hctx Hnamed Hne.
    destruct (collect_calm s w) as (w1 & lines & Hrun & Hlen & Hser & Hq & _);
      [done..|].
    rewrite Hrun in Hcollect. injection Hcollect as <- <-. by exists lines. }
  all: unfold collect in Hcollect; fold N w0 in Hcollect;
    rewrite makeslice_fits_in in Hcollect by lia;
    pose proof (select_recv_NotReady (picks s 0%nat) (ctx w0)
                  (queuedMetrics (cl w0))) as Hnr;
    destruct (select_recv (picks s 0%nat) (ctx w0) (queuedMetrics (cl w0)))
      as [m q|e|] eqn:Hsel;
    [destruct (append_String_cases s 0 m []) as [[line Hm]|[reason Hm]];
     rewrite Hm in Hcollect;
     [apply further_metrics_bounds in Hcollect; simpl in Hcollect
     |injection Hcollect as <- <-]
    |injection Hcollect as <- <-; apply select_recv_Done in Hsel
    |injection Hcollect as <- <-].
  - split; [by intros ->|]. intros H. by apply Hnr in H.
  - split; [done|]. intros H. by apply Hnr in H.
  - split; [done|]. intros H. by apply Hnr in H.
  - split; [intros _; by apply Hnr|done].
  - by intros ->.
  - done.
  - done.
  - done.
  - intros strs ->. lia.
  - done.
  - done.
  - done.
  - by intros err ->.
  - done.
  - intros err [= <-]. eauto.
  - done.
Qed.

Lemma collect_batch_witness :
  ∃ metricStrings,
    (collect calm three_queued).2 = Next metricStrings
    ∧ length metricStrings = 2%nat
    ∧ queue (collect calm three_queued).1 = [sample "3"].
Proof.
  assert (1 ≤ MaxMetricsPerMessage (options (cl three_queued))
          ≤ maxSliceCap) as HN
    by (rewrite maxSliceCap_value; simpl; lia).
  assert (collect calm three_queued
          = ((collect calm three_queued).1, (collect calm three_queued).2))
    as Hrun by (by destruct (collect calm three_queued)).
  destruct (proj2 (collect_batch calm three_queued _ _ Hrun) HN)
    as (_ & _ & _ & _ & Hcalm).
  destruct Hcalm as (strs & Hr & Hlen & _ & Hq).
  - intros i. reflexivity.
  - intros i tags. unfold range_order. reflexivity.
  - reflexivity.
  - repeat constructor; discriminate.
  - discriminate.
  - exists strs. rewrite Hq, Hlen. repeat split; done.
Defined.

(** ** The scenario *)

Lemma serializes_sample (value line : string) :
  serializes (sample value) line →
  line = "cpu.idle;host=a " +:+ value +:+ " 1700000000".
Proof.
  intros (order & Horder & Hline). unfold range_order in Horder.
  simpl in Horder. rewrite map_to_list_singleton in Horder.
  apply Permutation_singleton_r in Horder as ->.
  rewrite Metric_String_wire_line in Hline by done.
  injection Hline as <-. reflexivity.
Qed.

(** C1.  A client is made with buffer 10, batch 2 and one try on any
    connection; three calls of [SendMetric] with the name [cpu], [idle], the
    tag [host=a], the values 1, 2, 3 and the time 1700000000 return nil.  One
    iteration of [Submit], left alone, then hands to [Write], once, the two
    lines of the first two samples, each followed by a line feed, and leaves
    the third sample alone in the queue. *)
Theorem Submit_scenario (conn : net_Conn) (s : schedule) (p1 p2 p3 : bool) :
  quiet s → fair_orders s →
  ∃ c0 c1 c2 c3 w' r,
    NewClient (scenario_options conn) = Ok c0
    ∧ SendMetric p1 None c0 cpu_idle "1" 1700000000 = (c1, SendReturns None)
    ∧ SendMetric p2 None c1 cpu_idle "2" 1700000000 = (c2, SendReturns None)
    ∧ SendMetric p3 None c2 cpu_idle "3" 1700000000 = (c3, SendReturns None)
    ∧ Submit_iteration s {| ctx := None; cl := c3 |} = (w', r)
    ∧ written <$> Conn (options (cl w'))
      = Some (written conn ++ [scenario_message])
    ∧ queue w' = [sample "3"].
Proof.
  intros Hquiet Hfair.
  set (w3 := {| ctx := None;
                cl := scenario_client conn
                        [sample "1"; sample "2"; sample "3"] |}).
  exists (scenario_client conn []), (scenario_client conn [sample "1"]),
    (scenario_client conn [sample "1"; sample "2"]), (cl w3),
    (Submit_iteration s w3).1, (Submit_iteration s w3).2.
  do 4 (split; [reflexivity|]).
  split; [apply surjective_pairing|].
  destruct (collect_calm s w3 Hquiet Hfair)
    as (w1 & lines & Hrun & Hlen & Hser & Hq & _ & Ho);
    [rewrite maxSliceCap_value; simpl; lia|done
    |repeat constructor; discriminate|discriminate|].
  simpl in Hlen. destruct lines as [|l1 [|l2 [|l3 lines]]]; try done.
  simpl in Hser, Hq.
  apply Forall2_cons in Hser as [->%serializes_sample Hser].
  apply Forall2_cons in Hser as [->%serializes_sample _].
  unfold Submit_iteration. rewrite Hrun. unfold SubmitMetricsString.
  rewrite Ho. simpl.
  destruct (respond conn (written conn) _); simpl;
    (split; [reflexivity|exact Hq]).
Qed.

Lemma Submit_scenario_witness :
  ∃ w' r,
    Submit_iteration calm three_queued = (w', r)
    ∧ written <$> Conn (options (cl w')) = Some [scenario_message]
    ∧ queue w' = [sample "3"].
Proof.
  destruct (Submit_scenario healthy calm true true true)
    as (c0 & c1 & c2 & c3 & w' & r & H0 & H1 & H2 & H3 & Hrun & Hw & Hq).
  - intros i. reflexivity.
  - intros i tags. unfold range_order. reflexivity.
  - injection H0 as <-. injection H1 as <-. injection H2 as <-.
    injection H3 as <-. exists w', r. repeat split; [exact Hrun|exact Hw|exact Hq].
Defined.

(** ** Derived identities *)

Lemma array_alter (h : Mem.heap) (p : nat) (f : list string → list string) :
  f [] = [] → Mem.array (alter f p h) p = f (Mem.array h p).
Proof.
  intros Hf. unfold Mem.array. rewrite list_lookup_alter_eq.
  by destruct (h !! p).
Qed.

Lemma elems_length (h : Mem.heap) (s : Mem.slice) :
  Mem.wf h s → length (Mem.elems h s) = Mem.len s.
Proof.
  intros [Hlen Hcap]. unfold Mem.elems. rewrite length_take, length_drop. lia.
Qed.

(** Read right after the call, the child has the parent's name with the
    lower-cased segment at its end and the tags it was given, and the parent
    reads as before.  When the parent's slice is full, the child's name lies
    in a new backing array. *)
Lemma SubMetric_extends (unicode : string → string) (grow : nat → nat) (h : Mem.heap)
    (m : Mem.MetricMetadata) (name : string) (tags : gmap string string) :
  Mem.wf h (Mem.Name m) →
  let r := Mem.SubMetric unicode grow h m name tags in
  load r.1 r.2
  = {| Name := Name (load h m) ++ [ToLower unicode name]; Tags := tags |}
  ∧ load r.1 m = load h m
  ∧ (Mem.len (Mem.Name m) = Mem.cap (Mem.Name m) →
     Mem.ptr (Mem.Name r.2) = length h).
Proof.
  intros Hwf. pose proof (elems_length h _ Hwf) as Hlen.
  destruct Hwf as [Hle Hcap]. destruct m as [[p o l c] mtags].
  unfold Mem.SubMetric, Mem.append, load. simpl in *.
  destruct (Nat.ltb_spec l c) as [Hlt|Hge]; simpl.
  - assert (Mem.array
              (alter (λ a, <[(o + l)%nat := ToLower unicode name]> a) p h) p
            = <[(o + l)%nat := ToLower unicode name]> (Mem.array h p)) as Harr
      by by apply array_alter.
    unfold Mem.elems in *. simpl in *. rewrite Harr.
    rewrite drop_insert_ge by lia.
    replace (o + l - o)%nat with l by lia.
    split; [|split; [|lia]].
    + f_equal. rewrite (take_S_r _ _ (ToLower unicode name)).
      * by rewrite take_insert_ge.
      * apply list_lookup_insert_eq. rewrite length_drop. lia.
    + f_equal. by rewrite take_insert_ge.
  - assert (l = c) as -> by lia.
    unfold Mem.elems, Mem.array in *. simpl in *.
    rewrite list_lookup_middle by done. simpl.
    split; [|split; [|done]].
    + f_equal. rewrite cons_middle, app_assoc.
      apply take_app_length'. rewrite length_app, Hlen. simpl. lia.
    + f_equal. destruct (decide (p < length h)%nat) as [Hp|Hp].
      * by rewrite lookup_app_l.
      * assert (h !! p = None) as Hnone by (apply lookup_ge_None; lia).
        rewrite Hnone in Hcap. simpl in Hcap.
        assert (c = 0%nat) as -> by lia. done.
Qed.

(** C4 fails on a parent whose slice has room left.  Two children derived
    from [cpu0] are stored in the backing array of [cpu0]: after the second
    call the first child, which read [user] at its end, reads [system]. *)
Theorem SubMetric_siblings_overwrite (unicode : string → string) (grow : nat → nat)
    (tags1 tags2 : gmap string string) :
  let r1 := Mem.SubMetric unicode grow cpu0_heap cpu0 "User" tags1 in
  let r2 := Mem.SubMetric unicode grow r1.1 cpu0 "System" tags2 in
  Name (load r1.1 r1.2) = ["gopsutil"; "cpu"; "cpu0"; "user"]
  ∧ Name (load r2.1 r2.2) = ["gopsutil"; "cpu"; "cpu0"; "system"]
  ∧ Name (load r2.1 r1.2) = ["gopsutil"; "cpu"; "cpu0"; "system"]
  ∧ Name (load r2.1 cpu0) = ["gopsutil"; "cpu"; "cpu0"]
  ∧ Mem.ptr (Mem.Name r1.2) = Mem.ptr (Mem.Name cpu0)
  ∧ Mem.ptr (Mem.Name r2.2) = Mem.ptr (Mem.Name cpu0).
Proof. repeat split. Qed.

(** * Further properties *)

(** ** More on writing a batch *)

Lemma write_loop_wrote (msg : string) (n : nat) :
  ∀ (conn : net_Conn) (err : option error),
    ∃ k, (k ≤ n)%nat
         ∧ (write_loop n conn msg err).1 = wrote conn k msg
         ∧ ((write_loop n conn msg err).2 = ReturnedNil → (1 ≤ k)%nat)
         ∧ (∀ e, (write_loop n conn msg err).2 = FellThrough e → k = n).
Proof.
  induction n as [|n IH]; intros conn err; cbn [write_loop].
  { exists 0%nat. rewrite wrote_0. repeat split; (done || lia). }
  destruct (Conn_Write conn msg) as [conn' e] eqn:Hw.
  pose proof (wrote_S msg conn) as HS. rewrite Hw in HS. simpl in HS.
  destruct e as [e|].
  - destruct (IH conn' (Some e)) as (k & Hk & Hconn & Hnil & Hfell).
    exists (S k). rewrite Hconn, HS.
    repeat split; [lia|lia|]. intros e' He'. by rewrite (Hfell e').
  - exists 1%nat. simpl. rewrite <-HS, wrote_0. repeat split; (done || lia).
Qed.

(** [SubmitMetricsString] calls [Write] at most [MaxTries] times, each time
    with the batch string completed by a line feed, and with nothing else.  It
    returns nil only after at least one call, and an error only after
    [MaxTries] calls (none when [MaxTries] is below 1). *)
Theorem SubmitMetricsString_writes (c : client) (conn : net_Conn)
    (str : string) :
  Conn (options c) = Some conn →
  ∃ k : nat,
    Z.of_nat k ≤ Z.max 0 (MaxTries (options c))
    ∧ (SubmitMetricsString c str).1
      = set_conn (wrote conn k (terminate_line str)) c
    ∧ ((SubmitMetricsString c str).2 = Ok tt → (1 ≤ k)%nat)
    ∧ (∀ e, (SubmitMetricsString c str).2 = Err e →
            k = Z.to_nat (MaxTries (options c))).
Proof.
  intros Hconn. unfold SubmitMetricsString. rewrite Hconn.
  destruct (write_loop_wrote (terminate_line str)
              (Z.to_nat (MaxTries (options c))) conn None)
    as (k & Hk & Hw & Hnil & Hfell).
  exists k.
  destruct (write_loop (Z.to_nat (MaxTries (options c))) conn
              (terminate_line str) None) as [conn' [|err]];
    simpl in *; subst conn'; repeat split; try done; try lia.
  - intros _. by apply Hnil.
  - intros e _. by apply (Hfell err).
Qed.

Lemma SubmitMetricsString_writes_witness :
  ∃ k : nat,
    Z.of_nat k ≤ 2
    ∧ (SubmitMetricsString broken_client "x").1
      = set_conn (wrote broken k (terminate_line "x")) broken_client.
Proof.
  destruct (SubmitMetricsString_writes broken_client broken "x" eq_refl)
    as (k & Hk & Hw & _).
  exists k. split; [exact Hk|exact Hw].
Defined.

(** The buffer handed to [Write] ends with a line feed; a batch string that
    already ends with one is handed over as it is, so that completing a
    string twice is the same as completing it once. *)
Theorem terminate_line_once (str : string) :
  HasSuffix (terminate_line str) newline = true
  ∧ terminate_line (str +:+ newline) = str +:+ newline
  ∧ terminate_line (terminate_line str) = terminate_line str.
Proof.
  split; [apply terminate_line_ends|]. split.
  - unfold terminate_line. by rewrite HasSuffix_newline_app.
  - unfold terminate_line at 1. by rewrite terminate_line_ends.
Qed.

(** ** More on forming a batch *)

Lemma wire_line_open_ended (order : list (string * string)) (m : Metric) :
  open_ended (wire_line order m).
Proof.
  unfold wire_line.
  destruct (Sprint_last (Timestamp m)) as (pre & d & -> & Hd).
  eexists _, d. split; [|done]. by rewrite <-!app_assoc_s.
Qed.

Lemma open_ended_no_newline (line : string) :
  open_ended line → HasSuffix line newline = false.
Proof. intros (pre & d & -> & Hd). by apply HasSuffix_newline_last. Qed.

Lemma append_String_Next (s : schedule) (i : nat) (m : Metric)
    (acc strs : list string) :
  append_String s i m acc = Next strs →
  ∃ line, strs = acc ++ [line] ∧ open_ended line.
Proof.
  unfold append_String.
  destruct (Name (Metadata m)) as [|n0 rest] eqn:Hname.
  - unfold Metric_String. by rewrite Hname.
  - rewrite Metric_String_wire_line by (by rewrite Hname).
    intros [= <-]. eauto using wire_line_open_ended.
Qed.

Lemma further_metrics_open (s : schedule) (n : nat) :
  ∀ (i : nat) (w : world) (acc : list string) (w' : world)
    (strs : list string),
    further_metrics s n i w acc = (w', Next strs) →
    Forall open_ended acc → acc ≠ [] →
    Forall open_ended strs ∧ strs ≠ [].
Proof.
  induction n as [|n IH]; intros i w acc w' strs; cbn [further_metrics].
  { by intros [= <- <-]. }
  destruct (select_recv _ _ _) as [m q|e|].
  - destruct (append_String s i m acc) as [acc'| | |] eqn:Happ;
      try by intros [=].
    apply append_String_Next in Happ as (line & -> & Hline).
    intros Hrun Hacc Hne. eapply IH; [exact Hrun| |by destruct acc].
    apply Forall_app. split; [done|by constructor].
  - by intros [=].
  - by intros [= <- <-].
Qed.

Lemma Join_open_ended (strs : list string) (sep : string) :
  strs ≠ [] → Forall open_ended strs → open_ended (Join strs sep).
Proof.
  induction strs as [|x [|y strs] IH]; intros Hne Hall; [done|..].
  - by apply Forall_cons in Hall as [? _].
  - apply Forall_cons in Hall as [_ Hall].
    destruct (IH ltac:(done) Hall) as (pre & d & Hpre & Hd).
    exists (x +:+ sep +:+ pre), d. split; [|done].
    cbn [Join] in *. by rewrite Hpre, !app_assoc_s.
Qed.

Lemma collect_open_ended (s : schedule) (w w' : world)
    (metricStrings : list string) :
  collect s w = (w', Next metricStrings) →
  Forall open_ended metricStrings ∧ metricStrings ≠ [].
Proof.
  intros Hcollect. unfold collect in Hcollect.
  destruct (negb _); [done|].
  destruct (select_recv _ _ _) as [m q|e|]; try done.
  destruct (append_String s 0 m []) as [acc| | |] eqn:Happ; try done.
  apply append_String_Next in Happ as (line & -> & Hline).
  eapply further_metrics_open; [exact Hcollect| |done].
  by repeat constructor.
Qed.

Lemma collect_terminated (s : schedule) (w w' : world)
    (metricStrings : list string) :
  collect s w = (w', Next metricStrings) →
  metricStrings ≠ []
  ∧ terminate_line (Join metricStrings newline)
    = Join metricStrings newline +:+ newline.
Proof.
  intros [Hall Hne]%collect_open_ended. split; [done|].
  unfold terminate_line.
  by rewrite open_ended_no_newline by by apply Join_open_ended.
Qed.

(** A batch that [Submit] forms is never empty and none of its lines ends
    with a line feed, so the message written is the lines joined by line
    feeds and one more line feed: the test for a final line feed never finds
    one. *)
Theorem collect_message (s : schedule) (w w' : world)
    (metricStrings : list string) :
  collect s w = (w', Next metricStrings) →
  metricStrings ≠ []
  ∧ Forall (λ line, HasSuffix line newline = false) metricStrings
  ∧ terminate_line (Join metricStrings newline)
    = Join metricStrings newline +:+ newline.
Proof.
  intros Hcollect.
  destruct (collect_open_ended _ _ _ _ Hcollect) as [Hall Hne].
  split; [done|]. split.
  - eapply Forall_impl; [exact Hall|]. apply open_ended_no_newline.
  - unfold terminate_line.
    rewrite open_ended_no_newline; [done|]. by apply Join_open_ended.
Qed.

Lemma collect_message_witness :
  terminate_line
    (Join ["cpu.idle;host=a 1 1700000000"; "cpu.idle;host=a 2 1700000000"]
       newline)
  = scenario_message.
Proof.
  assert ((collect calm three_queued).2
          = Next ["cpu.idle;host=a 1 1700000000";
                  "cpu.idle;host=a 2 1700000000"]) as Hrun
    by (vm_compute; reflexivity).
  assert (collect calm three_queued
          = ((collect calm three_queued).1,
             Next ["cpu.idle;host=a 1 1700000000";
                   "cpu.idle;host=a 2 1700000000"])) as Heq
    by (rewrite <-Hrun; apply surjective_pairing).
  rewrite (proj2 (proj2 (collect_message _ _ _ _ Heq))). reflexivity.
Defined.

(** ** The queue *)

Lemma select_recv_Received (pick : bool) (ctx : option error) (q q' : chan)
    (m : Metric) :
  select_recv pick ctx q = Received m q' →
  buf q = m :: buf q' ∧ chan_cap q' = chan_cap q.
Proof.
  unfold select_recv. destruct (buf q), ctx, pick; intros [=]; by subst.
Qed.

Lemma SendMetric_capacity (pick : bool) (ctx : option error) (c : client)
    (metric : MetricMetadata) (value : string) (timestamp : Z) :
  within_capacity c →
  within_capacity (SendMetric pick ctx c metric value timestamp).1.
Proof.
  unfold within_capacity, SendMetric, has_room. intros Hc.
  destruct (Z.ltb_spec (Z.of_nat (length (buf (queuedMetrics c))))
              (chan_cap (queuedMetrics c)));
    destruct ctx, pick; simpl; try done; rewrite length_app; simpl; lia.
Qed.

Lemma env_steps_capacity (evs : list env_event) (w : world) :
  within_capacity (cl w) → within_capacity (cl (env_steps evs w)).
Proof.
  revert w. induction evs as [|ev evs IH]; intros w Hw; [done|].
  cbn [env_steps fold_left]. apply IH.
  destruct ev as [pick metric value timestamp|err]; simpl.
  - by apply SendMetric_capacity.
  - by destruct (ctx w).
Qed.

Lemma with_queue_capacity (pick : bool) (w : world) (q : chan) (m : Metric) :
  select_recv pick (ctx w) (queuedMetrics (cl w)) = Received m q →
  within_capacity (cl w) → within_capacity (cl (with_queue q w)).
Proof.
  intros [Hbuf Hcap]%select_recv_Received. unfold within_capacity. simpl.
  rewrite Hbuf, Hcap. simpl. lia.
Qed.

Lemma further_metrics_capacity (s : schedule) (n : nat) :
  ∀ (i : nat) (w : world) (acc : list string),
    within_capacity (cl w) →
    within_capacity (cl (further_metrics s n i w acc).1).
Proof.
  induction n as [|n IH]; intros i w acc Hw; cbn [further_metrics]; [done|].
  apply (env_steps_capacity (events s i)) in Hw.
  destruct (select_recv _ _ _) as [m q|e|] eqn:Hsel; [|done..].
  apply with_queue_capacity in Hsel; [|done].
  destruct (append_String s i m acc); simpl; [by apply IH|done..].
Qed.

Lemma collect_capacity (s : schedule) (w : world) :
  within_capacity (cl w) → within_capacity (cl (collect s w).1).
Proof.
  intros Hw. unfold collect. destruct (negb _); [done|].
  apply (env_steps_capacity (events s 0%nat)) in Hw.
  destruct (select_recv _ _ _) as [m q|e|] eqn:Hsel; [|done..].
  apply with_queue_capacity in Hsel; [|done].
  destruct (append_String s 0 m []); simpl;
    [by apply further_metrics_capacity|done..].
Qed.

Lemma SubmitMetricsString_queue (c : client) (str : string) :
  queuedMetrics (SubmitMetricsString c str).1 = queuedMetrics c.
Proof.
  unfold SubmitMetricsString. destruct (Conn (options c)) as [conn|].
  - by destruct (write_loop _ _ _ _) as [conn' [|err]].
  - by destruct (Z.to_nat _).
Qed.

Lemma Submit_iteration_queue (s : schedule) (w : world) :
  queuedMetrics (cl (Submit_iteration s w).1)
  = queuedMetrics (cl (collect s w).1).
Proof.
  unfold Submit_iteration. destruct (collect s w) as [w1 [strs| | |]]; try done.
  pose proof (SubmitMetricsString_queue (cl w1) (Join strs newline)) as Hq.
  by destruct (SubmitMetricsString _ _) as [c [[]| |]].
Qed.

(** The queue never holds more samples than the capacity of its channel:
    this holds for the client that [NewClient] returns, and [SendMetric] and
    [Submit] keep it, whatever the producers, the connection and the
    scheduling do. *)
Theorem queue_within_capacity :
  (∀ opts c, NewClient opts = Ok c → within_capacity c)
  ∧ (∀ pick ctx c metric value timestamp,
       within_capacity c →
       within_capacity (SendMetric pick ctx c metric value timestamp).1)
  ∧ (∀ n j s w,
       within_capacity (cl w) → within_capacity (cl (Submit n j s w).1)).
Proof.
  split; [|split].
  - intros opts c. rewrite NewClient_unfold.
    destruct ((setDefaults _).2); [done|].
    destruct (makechan_fits
                (MaxBufferSize (setDefaults (apply_options opts)).1))
      eqn:Hfits; simpl; [|done].
    apply makechan_fits_true in Hfits.
    intros [= <-]. unfold within_capacity. simpl. lia.
  - intros. by apply SendMetric_capacity.
  - intros n j s w Hw. unfold Submit.
    destruct (Conn (options (cl w))); [|done].
    revert j s w Hw.
    induction n as [|n IH]; intros j s w Hw; [done|]. cbn [Submit_loop].
    assert (within_capacity (cl (Submit_iteration (s j) w).1)) as Hit.
    { unfold within_capacity. rewrite Submit_iteration_queue.
      by apply collect_capacity. }
    destruct (Submit_iteration (s j) w) as [w1 [[]| | |]]; try done.
    by apply IH.
Qed.

Lemma queue_within_capacity_witness :
  within_capacity
    (SendMetric true None idle_client cpu_idle "1" 1700000000).1.
Proof.
  apply (proj1 (proj2 queue_within_capacity)).
  unfold within_capacity. simpl. lia.
Defined.

Lemma further_metrics_suffix (s : schedule) (n : nat) :
  quiet s →
  ∀ (i : nat) (w : world) (acc : list string),
    ∃ k, queue (further_metrics s n i w acc).1 = drop k (queue w).
Proof.
  intros Hquiet. induction n as [|n IH]; intros i w acc;
    cbn [further_metrics]; [by exists 0%nat|].
  rewrite env_steps_quiet by done.
  destruct (select_recv _ _ _) as [m q|e|] eqn:Hsel;
    [|by exists 0%nat..].
  apply select_recv_Received in Hsel as [Hbuf _].
  assert (queue (with_queue q w) = drop 1 (queue w)) as Hq
    by (unfold queue; simpl; by rewrite Hbuf).
  destruct (append_String s i m acc) as [acc'| | |]; simpl;
    [|by exists 1%nat..].
  destruct (IH (S i) (with_queue q w) acc') as [k Hk].
  exists (1 + k)%nat. by rewrite Hk, Hq, drop_drop.
Qed.

Lemma Submit_iteration_suffix (s : schedule) (w : world) :
  quiet s → ∃ k, queue (Submit_iteration s w).1 = drop k (queue w).
Proof.
  intros Hquiet. unfold queue. rewrite Submit_iteration_queue.
  unfold collect. destruct (negb _); [by exists 0%nat|].
  rewrite env_steps_quiet by done.
  destruct (select_recv _ _ _) as [m q|e|] eqn:Hsel;
    [|by exists 0%nat..].
  apply select_recv_Received in Hsel as [Hbuf _].
  assert (queue (with_queue q w) = drop 1 (queue w)) as Hq
    by (unfold queue; simpl; by rewrite Hbuf).
  destruct (append_String s 0 m []) as [acc'| | |]; simpl;
    [|by exists 1%nat..].
  destruct (further_metrics_suffix s
              (Z.to_nat (MaxMetricsPerMessage (options (cl w)) - 1)) Hquiet
              1 (with_queue q w) acc') as [k Hk].
  exists (1 + k)%nat. unfold queue in *. by rewrite Hk, Hq, drop_drop.
Qed.

(** With no producer at work, the queue after any number of iterations of
    [Submit] is the queue before without some of its first samples: [Submit]
    puts nothing into the queue, and in particular a batch whose writes have
    all failed, or that was cut short by a cancellation or a panic, is not
    put back. *)
Theorem Submit_never_enqueues (n j : nat) (s : nat → schedule) (w : world) :
  (∀ i, quiet (s i)) →
  ∃ k, queue (Submit n j s w).1 = drop k (queue w).
Proof.
  intros Hquiet. unfold Submit.
  destruct (Conn (options (cl w))); [|by exists 0%nat].
  revert j w.
  induction n as [|n IH]; intros j w; [by exists 0%nat|]. cbn [Submit_loop].
  destruct (Submit_iteration_suffix (s j) w (Hquiet j)) as [k Hk].
  destruct (Submit_iteration (s j) w) as [w1 [[]| | |]]; simpl in Hk;
    [|by exists k..].
  destruct (IH (S j) w1) as [k' Hk'].
  exists (k + k')%nat. by rewrite Hk', Hk, drop_drop.
Qed.

Lemma Submit_never_enqueues_witness :
  ∃ k, queue (Submit 2 0 (λ _, calm) three_queued).1
       = drop k (queue three_queued).
Proof.
  apply (Submit_never_enqueues 2 0 (λ _, calm) three_queued).
  intros i k. reflexivity.
Defined.

(** A sample can leave the queue without being written.  With a context that
    is done, a batch size of at least 2 that the allocation of the batch
    admits, and one named sample queued, an
    iteration whose first [select] takes the sample returns the cancellation
    error from the second [select]: the sample is gone from the queue and
    the connection has seen no call of [Write]. *)
Theorem Submit_iteration_drops_on_cancel (s : schedule) (w : world)
    (e : error) (m : Metric) :
  quiet s →
  ctx w = Some e →
  queue w = [m] →
  named m →
  2 ≤ MaxMetricsPerMessage (options (cl w)) ≤ maxSliceCap →
  picks s 0%nat = true →
  Submit_iteration s w
  = (with_queue {| buf := []; chan_cap := chan_cap (queuedMetrics (cl w)) |}
       w,
     Return (cancelled_error e)).
Proof.
  intros Hquiet Hctx Hq Hm HN Hpick. unfold queue in Hq.
  unfold Submit_iteration, collect.
  rewrite makeslice_fits_in by lia.
  rewrite env_steps_quiet by done.
  unfold select_recv at 1. rewrite Hq, Hctx, Hpick.
  destruct (append_String_named s 0 m [] Hm) as [line ->].
  destruct (Z.to_nat (MaxMetricsPerMessage (options (cl w)) - 1))
    as [|n] eqn:Hn; [lia|].
  cbn [further_metrics]. rewrite env_steps_quiet by done.
  unfold select_recv. simpl. by rewrite Hctx.
Qed.

Lemma Submit_iteration_drops_on_cancel_witness :
  Submit_iteration calm
    {| ctx := Some context_Canceled;
       cl := set_queue {| buf := [sample "1"]; chan_cap := 10 |}
               idle_client |}
  = ({| ctx := Some context_Canceled; cl := idle_client |},
     Return (cancelled_error context_Canceled)).
Proof.
  apply (Submit_iteration_drops_on_cancel calm
           {| ctx := Some context_Canceled;
              cl := set_queue {| buf := [sample "1"]; chan_cap := 10 |}
                      idle_client |}
           context_Canceled (sample "1")).
  - intros i. reflexivity.
  - reflexivity.
  - reflexivity.
  - discriminate.
  - rewrite maxSliceCap_value. simpl. lia.
  - reflexivity.
Defined.

(** A sample sent to a client with an empty queue and written at the first
    attempt, the batch size being at least 1 and within what the allocation
    of the batch admits: [SendMetric] returns nil, and the next iteration of
    [Submit], left alone, hands to [Write] one serialization of that very sample,
    completed by a line feed, and leaves the queue empty. *)
Theorem send_then_submit (s : schedule) (c : client) (conn : net_Conn)
    (pick : bool) (metric : MetricMetadata) (value : string)
    (timestamp : Z) :
  let m := {| Metadata := metric; Value := value; Timestamp := timestamp |} in
  quiet s → fair_orders s →
  buf (queuedMetrics c) = [] →
  0 < chan_cap (queuedMetrics c) →
  1 ≤ MaxMetricsPerMessage (options c) ≤ maxSliceCap →
  1 ≤ MaxTries (options c) →
  Conn (options c) = Some conn →
  Name metric ≠ [] →
  (∀ line, attempt conn (line +:+ newline) 0 = None) →
  ∃ c1 line w',
    SendMetric pick None c metric value timestamp = (c1, SendReturns None)
    ∧ serializes m line
    ∧ Submit_iteration s {| ctx := None; cl := c1 |} = (w', Next tt)
    ∧ Conn (options (cl w')) = Some (wrote conn 1 (line +:+ newline))
    ∧ queue w' = [].
Proof.
  intros m Hquiet Hfair Hbuf Hcap HN Htries Hconn Hname Hwrite.
  set (c1 := set_queue (push m (queuedMetrics c)) c).
  assert (SendMetric pick None c metric value timestamp
          = (c1, SendReturns None)) as Hsend.
  { assert (has_room (queuedMetrics c) = true) as Hroom
      by (unfold has_room; rewrite Hbuf; apply Z.ltb_lt; simpl; lia).
    unfold SendMetric. by rewrite Hroom. }
  destruct (collect_calm s {| ctx := None; cl := c1 |} Hquiet Hfair)
    as (w1 & lines & Hrun & Hlen & Hser & Hq & Hc & Ho);
    [done|done| | |].
  { unfold queue. simpl. rewrite Hbuf. by repeat constructor. }
  { unfold queue. simpl. by rewrite Hbuf. }
  unfold queue in Hlen, Hser, Hq. simpl in Hlen, Hser, Hq, Ho.
  rewrite Hbuf in Hlen, Hser, Hq. simpl in Hlen, Hser, Hq.
  destruct lines as [|line [|line' lines]]; simpl in Hlen; [lia| |lia].
  simpl in Hser, Hq. apply Forall2_cons in Hser as [Hline _].
  assert (terminate_line line = line +:+ newline) as Hterm.
  { pose proof (collect_terminated _ _ _ _ Hrun) as (_ & Ht). exact Ht. }
  exists c1, line.
  eexists. split; [exact Hsend|]. split; [exact Hline|].
  unfold Submit_iteration. rewrite Hrun. unfold SubmitMetricsString.
  rewrite Ho, Hconn. cbn [Join]. rewrite Hterm.
  rewrite (write_loop_succeeds (line +:+ newline) 0) by (lia || done).
  simpl. repeat split. exact Hq.
Qed.

Lemma send_then_submit_witness :
  ∃ c1 line w',
    SendMetric true None idle_client cpu_idle "1" 1700000000
    = (c1, SendReturns None)
    ∧ serializes (sample "1") line
    ∧ Submit_iteration calm {| ctx := None; cl := c1 |} = (w', Next tt)
    ∧ Conn (options (cl w')) = Some (wrote healthy 1 (line +:+ newline))
    ∧ queue w' = [].
Proof.
  apply (send_then_submit calm idle_client healthy true cpu_idle "1"
           1700000000).
  - intros i. reflexivity.
  - intros i tags. unfold range_order. reflexivity.
  - reflexivity.
  - simpl. lia.
  - rewrite maxSliceCap_value. simpl. lia.
  - simpl. lia.
  - reflexivity.
  - discriminate.
  - intros line. reflexivity.
Defined.

(** ** More on construction *)

(** A client that [NewClient] returns has an empty queue whose capacity is
    its positive [MaxBufferSize], has no limit equal to 0, and carries the
    connection and the address it was given, at least one of which is
    present. *)
Theorem NewClient_client (opts : list ClientOption) (c : client) :
  NewClient opts = Ok c →
  buf (queuedMetrics c) = []
  ∧ chan_cap (queuedMetrics c) = MaxBufferSize (options c)
  ∧ 0 < MaxBufferSize (options c)
  ∧ MaxMetricsPerMessage (options c) ≠ 0
  ∧ MaxTries (options c) ≠ 0
  ∧ Conn (options c) = Conn (apply_options opts)
  ∧ Addr (options c) = Addr (apply_options opts)
  ∧ (Conn (options c) ≠ None ∨ Addr (options c) ≠ "").
Proof.
  rewrite NewClient_unfold, setDefaults_error.
  pose proof (setDefaults_fields (apply_options opts))
    as (Hb & Hn & Ht & Hconn & Haddr).
  set (given := apply_options opts) in *.
  assert (Conn given ≠ None ∨ Addr given ≠ "" →
          (if negb (makechan_fits (MaxBufferSize (setDefaults given).1))
           then Panic "makechan: size out of range"
           else Ok {| options := (setDefaults given).1;
                      queuedMetrics :=
                        {| buf := [];
                           chan_cap := MaxBufferSize (setDefaults given).1 |}
                   |}) = Ok c →
          buf (queuedMetrics c) = []
          ∧ chan_cap (queuedMetrics c) = MaxBufferSize (options c)
          ∧ 0 < MaxBufferSize (options c)
          ∧ MaxMetricsPerMessage (options c) ≠ 0
          ∧ MaxTries (options c) ≠ 0
          ∧ Conn (options c) = Conn given
          ∧ Addr (options c) = Addr given
          ∧ (Conn (options c) ≠ None ∨ Addr (options c) ≠ "")) as Hok.
  { intros Hdest.
    destruct (makechan_fits (MaxBufferSize (setDefaults given).1))
      eqn:Hpos; simpl; [|done].
    apply makechan_fits_true in Hpos.
    intros [= <-]. simpl. rewrite Hconn, Haddr.
    repeat split; try done.
    - rewrite Hb in *. unfold DefaultMaxBufferSize in *.
      destruct (Z.eqb_spec (MaxBufferSize given) 0); lia.
    - rewrite Hn. unfold DefaultMaxMetricsPerMessage.
      by destruct (Z.eqb_spec (MaxMetricsPerMessage given) 0).
    - rewrite Ht. unfold DefaultMaxTries.
      by destruct (Z.eqb_spec (MaxTries given) 0). }
  destruct (Conn given) as [conn|] eqn:Hc.
  - apply Hok. by left.
  - destruct (String.eqb_spec (Addr given) ""); [done|].
    apply Hok. by right.
Qed.

Lemma NewClient_client_witness :
  ∃ c, NewClient (scenario_options healthy) = Ok c
       ∧ buf (queuedMetrics c) = []
       ∧ chan_cap (queuedMetrics c) = 10.
Proof.
  exists (scenario_client healthy []).
  destruct (NewClient_client (scenario_options healthy)
              (scenario_client healthy []) eq_refl) as (Hbuf & Hcap & _).
  split; [reflexivity|]. split; [exact Hbuf|exact Hcap].
Defined.

(** [NewClient] does not open a connection: given an address and no
    connection, with a buffer size that is not negative and that the
    allocation of the queue admits, and no negative number of tries, it
    returns a
    client without a connection, and writing any batch with that client
    panics on the nil connection. *)
Theorem NewClient_address_only (opts : list ClientOption) :
  Conn (apply_options opts) = None →
  Addr (apply_options opts) ≠ "" →
  0 ≤ MaxBufferSize (apply_options opts) ≤ maxChanCap →
  0 ≤ MaxTries (apply_options opts) →
  ∃ c, NewClient opts = Ok c
       ∧ Conn (options c) = None
       ∧ ∀ str, SubmitMetricsString c str
                = (c, Panic "runtime error: invalid memory address or nil pointer dereference").
Proof.
  intros Hconn Haddr Hbuf Htries.
  rewrite NewClient_unfold, setDefaults_error, Hconn.
  pose proof (setDefaults_fields (apply_options opts))
    as (Hb & _ & Ht & Hc & _).
  destruct (String.eqb_spec (Addr (apply_options opts)) ""); [done|].
  rewrite makechan_fits_in.
  2:{ rewrite Hb. unfold DefaultMaxBufferSize.
      rewrite maxChanCap_value in *.
      destruct (Z.eqb_spec (MaxBufferSize (apply_options opts)) 0); lia. }
  eexists. split; [done|]. simpl. rewrite Hc, Hconn. split; [done|].
  intros str. unfold SubmitMetricsString. simpl. rewrite Hc, Hconn.
  destruct (Z.to_nat (MaxTries (setDefaults (apply_options opts)).1))
    eqn:Hn; [|done].
  rewrite Ht in Hn. unfold DefaultMaxTries in Hn.
  destruct (Z.eqb_spec (MaxTries (apply_options opts)) 0); lia.
Qed.

Lemma NewClient_address_only_witness :
  ∃ c, NewClient [WithAddress "localhost:2003"] = Ok c
       ∧ Conn (options c) = None
       ∧ ∀ str, SubmitMetricsString c str
                = (c, Panic "runtime error: invalid memory address or nil pointer dereference").
Proof.
  apply (NewClient_address_only [WithAddress "localhost:2003"]).
  - reflexivity.
  - discriminate.
  - rewrite maxChanCap_value. simpl. lia.
  - simpl. lia.
Defined.

(** ** More on serialization *)

(** [Metric.String] does not escape or reject anything: a dot inside a name
    segment is written like the dot between two segments, so the two names
    give the same line. *)
Theorem Metric_String_dot_in_segment (order : list (string * string))
    (a b : string) (rest : list string) (tags : gmap string string)
    (value : string) (timestamp : Z) :
  Metric_String order
    {| Metadata := {| Name := (a +:+ "." +:+ b) :: rest; Tags := tags |};
       Value := value; Timestamp := timestamp |}
  = Metric_String order
      {| Metadata := {| Name := a :: b :: rest; Tags := tags |};
         Value := value; Timestamp := timestamp |}.
Proof.
  rewrite !Metric_String_wire_line by done. unfold wire_line. simpl.
  do 2 f_equal. destruct rest; by rewrite ?app_assoc_s.
Qed.

(** ** More on derived identities *)

Lemma array_alter_length (h : list (list string)) (p p' i : nat)
    (x : string) :
  length (Mem.array (alter (λ a, <[i := x]> a) p h) p')
  = length (Mem.array h p').
Proof.
  unfold Mem.array. destruct (decide (p = p')) as [->|Hne].
  - rewrite list_lookup_alter_eq. destruct (h !! p'); simpl; [|done].
    apply length_insert.
  - by rewrite list_lookup_alter_ne.
Qed.

Lemma array_app_length (h : list (list string)) (a : list string)
    (p : nat) :
  (length (Mem.array h p) ≤ length (Mem.array (h ++ [a]) p))%nat.
Proof.
  unfold Mem.array. destruct (decide (p < length h)%nat) as [Hp|Hp].
  - by rewrite lookup_app_l.
  - rewrite (lookup_ge_None_2 h p) by lia. simpl. lia.
Qed.

Lemma SubMetric_keeps_wf (unicode : string → string) (grow : nat → nat) (h : list (list string))
    (m : Mem.MetricMetadata) (name : string) (tags : gmap string string)
    (s : Mem.slice) :
  Mem.wf h s → Mem.wf (Mem.SubMetric unicode grow h m name tags).1 s.
Proof.
  intros [Hlen Hcap]. unfold Mem.SubMetric, Mem.append, Mem.wf.
  destruct (Nat.ltb_spec (Mem.len (Mem.Name m)) (Mem.cap (Mem.Name m)));
    simpl; (split; [done|]).
  - by rewrite array_alter_length.
  - etrans; [exact Hcap|apply array_app_length].
Qed.

Lemma SubMetric_wf_child (unicode : string → string) (grow : nat → nat) (h : list (list string))
    (m : Mem.MetricMetadata) (name : string) (tags : gmap string string) :
  grows grow →
  Mem.wf h (Mem.Name m) →
  Mem.wf (Mem.SubMetric unicode grow h m name tags).1
    (Mem.Name (Mem.SubMetric unicode grow h m name tags).2).
Proof.
  intros Hgrow Hwf.
  pose proof (elems_length h _ Hwf) as Helems. destruct Hwf as [Hlen Hcap].
  unfold Mem.SubMetric, Mem.append, Mem.wf.
  destruct (Nat.ltb_spec (Mem.len (Mem.Name m)) (Mem.cap (Mem.Name m)))
    as [Hlt|Hge]; simpl.
  - rewrite array_alter_length. lia.
  - pose proof (Hgrow (Mem.cap (Mem.Name m))) as Hg.
    unfold Mem.array. rewrite list_lookup_middle by done. simpl.
    rewrite length_app. simpl. rewrite Helems, length_replicate. lia.
Qed.

(** [SubMetric] keeps the memory well formed: with a growth policy that
    makes room for the new element, the child's slice lies inside its backing
    array, and so does every slice that did before. *)
Theorem SubMetric_well_formed (unicode : string → string) (grow : nat → nat) (h : list (list string))
    (m : Mem.MetricMetadata) (name : string) (tags : gmap string string) :
  grows grow →
  Mem.wf h (Mem.Name m) →
  let r := Mem.SubMetric unicode grow h m name tags in
  Mem.wf r.1 (Mem.Name r.2) ∧ ∀ s, Mem.wf h s → Mem.wf r.1 s.
Proof.
  intros Hgrow Hwf r. subst r. split.
  - by apply SubMetric_wf_child.
  - intros s Hs. by apply SubMetric_keeps_wf.
Qed.

Lemma SubMetric_well_formed_witness :
  Mem.wf (Mem.SubMetric id (λ c, S (2 * c)) cpu0_heap cpu0 "User" ∅).1
    (Mem.Name (Mem.SubMetric id (λ c, S (2 * c)) cpu0_heap cpu0 "User" ∅).2).
Proof.
  assert (grows (λ c, S (2 * c))) as Hgrow by (intros c; lia).
  assert (Mem.wf cpu0_heap (Mem.Name cpu0)) as Hwf
    by (unfold Mem.wf; simpl; lia).
  exact (proj1 (SubMetric_well_formed id _ cpu0_heap cpu0 "User" ∅ Hgrow Hwf)).
Defined.

Lemma SubMetric_full_frame (unicode : string → string) (grow : nat → nat) (h : list (list string))
    (m : Mem.MetricMetadata) (name : string) (tags : gmap string string)
    (s : Mem.slice) :
  Mem.wf h s →
  (Mem.cap (Mem.Name m) ≤ Mem.len (Mem.Name m))%nat →
  Mem.elems (Mem.SubMetric unicode grow h m name tags).1 s = Mem.elems h s.
Proof.
  intros [Hlen Hcap] Hfull. unfold Mem.SubMetric, Mem.append, Mem.elems.
  destruct (Nat.ltb_spec (Mem.len (Mem.Name m)) (Mem.cap (Mem.Name m)))
    as [Hlt|Hge]; [lia|]. simpl. unfold Mem.array in *.
  destruct (decide (Mem.ptr s < length h)%nat) as [Hp|Hp].
  - by rewrite lookup_app_l.
  - rewrite (lookup_ge_None_2 h (Mem.ptr s)) in * by lia. simpl in *.
    assert (Mem.len s = 0%nat) as -> by lia. done.
Qed.

(** [SubMetric] changes at most one element of memory, the one behind the
    parent's last element in the parent's backing array: a slice over another
    array reads as before, and when the parent's slice is full every slice
    does. *)
Theorem SubMetric_frame (unicode : string → string) (grow : nat → nat) (h : list (list string))
    (m : Mem.MetricMetadata) (name : string) (tags : gmap string string)
    (s : Mem.slice) :
  Mem.wf h s →
  Mem.ptr s ≠ Mem.ptr (Mem.Name m)
  ∨ (Mem.cap (Mem.Name m) ≤ Mem.len (Mem.Name m))%nat →
  Mem.elems (Mem.SubMetric unicode grow h m name tags).1 s = Mem.elems h s.
Proof.
  intros Hwf [Hne|Hfull]; [|by apply SubMetric_full_frame].
  destruct (decide (Mem.cap (Mem.Name m) ≤ Mem.len (Mem.Name m))%nat)
    as [Hfull|Hroom]; [by apply SubMetric_full_frame|].
  unfold Mem.SubMetric, Mem.append, Mem.elems.
  destruct (Nat.ltb_spec (Mem.len (Mem.Name m)) (Mem.cap (Mem.Name m)));
    [|lia].
  simpl. unfold Mem.array. by rewrite list_lookup_alter_ne.
Qed.

Lemma SubMetric_frame_witness :
  Mem.elems (Mem.SubMetric id (λ c, S (2 * c)) [["a"]; ["b"]]
               {| Mem.Name := {| Mem.ptr := 0; Mem.off := 0; Mem.len := 1;
                                 Mem.cap := 1 |};
                  Mem.Tags := ∅ |} "C" ∅).1
    {| Mem.ptr := 1; Mem.off := 0; Mem.len := 1; Mem.cap := 1 |}
  = ["b"].
Proof.
  apply (SubMetric_frame id (λ c, S (2 * c)) [["a"]; ["b"]]
           {| Mem.Name := {| Mem.ptr := 0; Mem.off := 0; Mem.len := 1;
                             Mem.cap := 1 |};
              Mem.Tags := ∅ |} "C" ∅
           {| Mem.ptr := 1; Mem.off := 0; Mem.len := 1; Mem.cap := 1 |}).
  - unfold Mem.wf. simpl. lia.
  - left. discriminate.
Defined.

(** Two children of a parent whose slice is full do not disturb each other:
    after the second call the first child still reads the parent's name with
    its own segment, and the second reads the parent's name with its own. *)
Theorem SubMetric_siblings_apart (unicode : string → string) (grow : nat → nat) (h : list (list string))
    (m : Mem.MetricMetadata) (name1 name2 : string)
    (tags1 tags2 : gmap string string) :
  grows grow →
  Mem.wf h (Mem.Name m) →
  Mem.len (Mem.Name m) = Mem.cap (Mem.Name m) →
  let r1 := Mem.SubMetric unicode grow h m name1 tags1 in
  let r2 := Mem.SubMetric unicode grow r1.1 m name2 tags2 in
  Name (load r2.1 r1.2) = Name (load h m) ++ [ToLower unicode name1]
  ∧ Name (load r2.1 r2.2) = Name (load h m) ++ [ToLower unicode name2]
  ∧ Name (load r2.1 m) = Name (load h m).
Proof.
  intros Hgrow Hwf Hfull r1 r2.
  destruct (SubMetric_extends unicode grow h m name1 tags1 Hwf) as (H1 & Hm1 & _).
  pose proof (SubMetric_wf_child unicode grow h m name1 tags1 Hgrow Hwf) as Hwf1.
  pose proof (SubMetric_keeps_wf unicode grow h m name1 tags1 _ Hwf) as Hkeep.
  fold r1 in H1, Hm1, Hwf1, Hkeep.
  destruct (SubMetric_extends unicode grow r1.1 m name2 tags2 Hkeep)
    as (H2 & Hm2 & _).
  fold r2 in H2, Hm2.
  split; [|split].
  - unfold load at 1. simpl. subst r2.
    rewrite SubMetric_full_frame by (done || lia).
    by apply (f_equal Name) in H1.
  - apply (f_equal Name) in H2, Hm1. simpl in *. congruence.
  - apply (f_equal Name) in Hm2, Hm1. simpl in *. congruence.
Qed.

Lemma SubMetric_siblings_apart_witness :
  let r1 := Mem.SubMetric id (λ c, S (2 * c)) [["cpu"]]
              {| Mem.Name := {| Mem.ptr := 0; Mem.off := 0; Mem.len := 1;
                                Mem.cap := 1 |};
                 Mem.Tags := ∅ |} "User" ∅ in
  let r2 := Mem.SubMetric id (λ c, S (2 * c)) r1.1
              {| Mem.Name := {| Mem.ptr := 0; Mem.off := 0; Mem.len := 1;
                                Mem.cap := 1 |};
                 Mem.Tags := ∅ |} "System" ∅ in
  Name (load r2.1 r1.2) = ["cpu"] ++ ["user"].
Proof.
  assert (grows (λ c, S (2 * c))) as Hgrow by (intros c; lia).
  assert (Mem.wf [["cpu"]]
            {| Mem.ptr := 0; Mem.off := 0; Mem.len := 1; Mem.cap := 1 |})
    as Hwf by (unfold Mem.wf; simpl; lia).
  exact (proj1 (SubMetric_siblings_apart id _ [["cpu"]]
                  {| Mem.Name := {| Mem.ptr := 0; Mem.off := 0; Mem.len := 1;
                                    Mem.cap := 1 |};
                     Mem.Tags := ∅ |} "User" "System" ∅ ∅ Hgrow Hwf eq_refl)).
Defined.

(** Two children of a parent whose slice has room left share one slot: after
    the second call the first child reads the parent's name with the second
    child's segment. *)
Theorem SubMetric_siblings_shared (unicode : string → string) (grow : nat → nat) (h : list (list string))
    (m : Mem.MetricMetadata) (name1 name2 : string)
    (tags1 tags2 : gmap string string) :
  Mem.wf h (Mem.Name m) →
  (Mem.len (Mem.Name m) < Mem.cap (Mem.Name m))%nat →
  let r1 := Mem.SubMetric unicode grow h m name1 tags1 in
  let r2 := Mem.SubMetric unicode grow r1.1 m name2 tags2 in
  Name (load r1.1 r1.2) = Name (load h m) ++ [ToLower unicode name1]
  ∧ Name (load r2.1 r1.2) = Name (load h m) ++ [ToLower unicode name2]
  ∧ Mem.Name r1.2 = Mem.Name r2.2.
Proof.
  intros Hwf Hroom r1 r2.
  destruct (SubMetric_extends unicode grow h m name1 tags1 Hwf) as (H1 & Hm1 & _).
  pose proof (SubMetric_keeps_wf unicode grow h m name1 tags1 _ Hwf) as Hwf1.
  fold r1 in H1, Hm1, Hwf1.
  destruct (SubMetric_extends unicode grow r1.1 m name2 tags2 Hwf1) as (H2 & _ & _).
  fold r2 in H2.
  assert (Mem.Name r1.2 = Mem.Name r2.2) as Hsame.
  { subst r2 r1. unfold Mem.SubMetric, Mem.append.
    by destruct (Nat.ltb_spec (Mem.len (Mem.Name m)) (Mem.cap (Mem.Name m)));
      [|lia]. }
  split; [by apply (f_equal Name) in H1|]. split; [|done].
  apply (f_equal Name) in H2, Hm1. simpl in *. rewrite Hsame. congruence.
Qed.

Lemma SubMetric_siblings_shared_witness :
  let r1 := Mem.SubMetric id (λ c, S (2 * c)) cpu0_heap cpu0 "User" ∅ in
  let r2 := Mem.SubMetric id (λ c, S (2 * c)) r1.1 cpu0 "System" ∅ in
  Name (load r2.1 r1.2) = Name (load cpu0_heap cpu0) ++ ["system"].
Proof.
  assert (Mem.wf cpu0_heap (Mem.Name cpu0)) as Hwf
    by (unfold Mem.wf; simpl; lia).
  assert (Mem.len (Mem.Name cpu0) < Mem.cap (Mem.Name cpu0))%nat as Hroom
    by (simpl; lia).
  exact (proj1 (proj2 (SubMetric_siblings_shared id (λ c, S (2 * c)) cpu0_heap
                         cpu0 "User" "System" ∅ ∅ Hwf Hroom))).
Defined.

(** ** The commands: finding a line *)

Lemma prefix_starts_with (prefix line : string) :
  String.prefix prefix line = true ↔ starts_with prefix line.
Proof.
  revert line. induction prefix as [|a prefix IH]; intros line.
  - split; [intros _; by exists line|by destruct line].
  - destruct line as [|b line]; simpl.
    + split; [done|]. by intros [rest [=]].
    + destruct (Ascii.ascii_dec a b) as [->|Hne].
      * rewrite IH. split; intros [rest Hrest]; exists rest.
        -- by rewrite Hrest.
        -- by injection Hrest.
      * split; [done|]. intros [rest [= ? _]]. done.
Qed.

Lemma substring_all (s : string) : substring 0 (String.length s) s = s.
Proof. induction s as [|a s IH]; [done|]. simpl. by rewrite IH. Qed.

Lemma substring_after (prefix rest : string) :
  substring (String.length prefix)
    (String.length (prefix +:+ rest) - String.length prefix)
    (prefix +:+ rest)
  = rest.
Proof.
  rewrite length_app_s.
  replace (String.length prefix + String.length rest
           - String.length prefix)%nat
    with (String.length rest) by lia.
  induction prefix as [|a prefix IH]; [apply substring_all|].
  rewrite app_String. simpl. apply IH.
Qed.

Lemma CutPrefix_found (prefix rest : string) :
  CutPrefix (prefix +:+ rest) prefix = (rest, true).
Proof.
  unfold CutPrefix.
  rewrite (proj2 (prefix_starts_with prefix (prefix +:+ rest)))
    by by exists rest.
  by rewrite substring_after.
Qed.

Lemma CutPrefix_not_found (prefix line : string) :
  ¬ starts_with prefix line → CutPrefix line prefix = (line, false).
Proof.
  intros Hno. unfold CutPrefix.
  destruct (String.prefix prefix line) eqn:Hp; [|done].
  by apply prefix_starts_with in Hp.
Qed.

Lemma starts_with_or_not (prefix line : string) :
  starts_with prefix line ∨ ¬ starts_with prefix line.
Proof.
  destruct (String.prefix prefix line) eqn:Hp.
  - left. by apply prefix_starts_with.
  - right. intros H%prefix_starts_with. congruence.
Qed.

(** [parseLine] returns what follows the prefix in the first line that
    begins with it: it succeeds with [rest] exactly when the lines are some
    lines that do not begin with the prefix, then the prefix followed by
    [rest], then any lines. *)
Theorem parseLine_first_match (prefix : string) (lines : list string)
    (rest : string) :
  parseLine prefix lines = Ok rest
  ↔ ∃ before after,
      lines = before ++ (prefix +:+ rest) :: after
      ∧ Forall (λ line, ¬ starts_with prefix line) before.
Proof.
  split.
  - induction lines as [|line lines IH]; [done|]. cbn [parseLine].
    destruct (starts_with_or_not prefix line) as [[t ->]|Hno].
    + rewrite CutPrefix_found. intros [= ->]. by exists [], lines.
    + rewrite CutPrefix_not_found by done.
      intros (before & after & -> & Hbefore)%IH.
      exists (line :: before), after. split; [done|by constructor].
  - intros (before & after & -> & Hbefore).
    induction Hbefore as [|line before Hno _ IH]; cbn [parseLine app].
    + by rewrite CutPrefix_found.
    + by rewrite CutPrefix_not_found.
Qed.

Lemma parseLine_first_match_witness :
  parseLine "GPU Power:" ["GPU idle residency:  97.79%"; "GPU Power: 16 mW"]
  = Ok " 16 mW".
Proof.
  apply (proj2 (parseLine_first_match "GPU Power:"
                  ["GPU idle residency:  97.79%"; "GPU Power: 16 mW"]
                  " 16 mW")).
  exists ["GPU idle residency:  97.79%"], []. split; [reflexivity|].
  repeat constructor. intros [rest Hrest]. discriminate Hrest.
Defined.

(** [parseLine] fails exactly when no line begins with the prefix, in
    particular on no lines at all; its only error wraps [ErrLineNotFound] and
    names the prefix. *)
Theorem parseLine_not_found (prefix : string) (lines : list string) :
  (parseLine prefix lines = Err (line_not_found prefix)
   ↔ Forall (λ line, ¬ starts_with prefix line) lines)
  ∧ (∀ e, parseLine prefix lines = Err e →
          Unwrap e = Some ErrLineNotFound
          ∧ Error e = "line with prefix not found: " +:+ prefix)
  ∧ (∀ reason, parseLine prefix lines ≠ Panic reason).
Proof.
  induction lines as [|line lines (IHerr & IHe & IHp)]; cbn [parseLine].
  { split; [done|]. split; [by intros e [= <-]|done]. }
  destruct (starts_with_or_not prefix line) as [[t ->]|Hno].
  - rewrite CutPrefix_found. split; [|done].
    split; [done|]. intros [Hno _]%Forall_cons. destruct Hno. by exists t.
  - rewrite CutPrefix_not_found by done. split; [|done].
    rewrite IHerr. split; [by constructor|by intros [_ ?]%Forall_cons].
Qed.

Lemma parseLine_not_found_witness :
  parseLine "GPU Power:" ["GPU idle residency:  97.79%"]
  = Err (line_not_found "GPU Power:").
Proof.
  apply (proj1 (parseLine_not_found "GPU Power:"
                  ["GPU idle residency:  97.79%"])).
  repeat constructor. intros [rest Hrest]. discriminate Hrest.
Defined.

(** ** The commands: the [prefix] and [tags] flags *)

Lemma Split_not_nil (s : string) (sep : ascii) : Split s sep ≠ [].
Proof.
  destruct s as [|a s]; simpl; [done|].
  destruct (Ascii.eqb a sep); [done|]. by destruct (Split s sep).
Qed.

Lemma Join_cons (x : string) (l : list string) (sep : string) :
  l ≠ [] → Join (x :: l) sep = x +:+ sep +:+ Join l sep.
Proof. by destruct l. Qed.

Lemma Join_snoc (l : list string) (x sep : string) :
  l ≠ [] → Join (l ++ [x]) sep = Join l sep +:+ sep +:+ x.
Proof.
  induction l as [|y [|z l] IH]; intros Hne; [done|done|].
  change ((y :: z :: l) ++ [x]) with (y :: ((z :: l) ++ [x])).
  rewrite (Join_cons y ((z :: l) ++ [x])) by done.
  rewrite IH by done. rewrite (Join_cons y (z :: l)) by done.
  by rewrite !app_assoc_s.
Qed.

Lemma Join_Split (s : string) (sep : ascii) :
  Join (Split s sep) (String sep "") = s.
Proof.
  induction s as [|a s IH]; [done|]. cbn [Split].
  destruct (Ascii.eqb_spec a sep) as [->|Hne].
  - rewrite Join_cons by apply Split_not_nil. by rewrite IH.
  - pose proof (Split_not_nil s sep) as Hnil.
    destruct (Split s sep) as [|piece pieces]; [done|].
    rewrite <-IH. by destruct pieces.
Qed.

Lemma contains_byte_app (c : ascii) (s t : string) :
  contains_byte c (s +:+ t) = contains_byte c s || contains_byte c t.
Proof.
  induction s as [|a s IH]; [done|]. rewrite app_String. simpl.
  by rewrite IH, orb_assoc.
Qed.

Lemma Split_free (s : string) (sep : ascii) :
  contains_byte sep s = false → Split s sep = [s].
Proof.
  induction s as [|a s IH]; [done|]. simpl.
  intros [Ha Hs]%orb_false_elim. by rewrite Ha, IH.
Qed.

Lemma Split_app_sep (s rest : string) (sep : ascii) :
  contains_byte sep s = false →
  Split (s +:+ String sep rest) sep = s :: Split rest sep.
Proof.
  induction s as [|a s IH]; simpl.
  - intros _. by rewrite Ascii.eqb_refl.
  - intros [Ha Hs]%orb_false_elim. by rewrite Ha, IH.
Qed.

Lemma Split_Join (parts : list string) (sep : ascii) :
  parts ≠ [] →
  Forall (λ part, contains_byte sep part = false) parts →
  Split (Join parts (String sep "")) sep = parts.
Proof.
  induction parts as [|x [|y parts] IH]; intros Hne Hfree; [done|..].
  - apply Forall_cons in Hfree as [Hx _]. by apply Split_free.
  - apply Forall_cons in Hfree as [Hx Hfree].
    rewrite Join_cons by done.
    change (String sep "" +:+ Join (y :: parts) (String sep ""))
      with (String sep (Join (y :: parts) (String sep ""))).
    rewrite Split_app_sep by done. by rewrite IH.
Qed.

Lemma cut_byte_None (s : string) (sep : ascii) :
  cut_byte s sep = None ↔ contains_byte sep s = false.
Proof.
  induction s as [|a s IH]; [done|]. simpl.
  destruct (Ascii.eqb a sep); [done|]. simpl. rewrite <-IH.
  by destruct (cut_byte s sep) as [[]|].
Qed.

Lemma cut_byte_first (before after : string) (sep : ascii) :
  contains_byte sep before = false →
  cut_byte (before +:+ String sep after) sep = Some (before, after).
Proof.
  induction before as [|a before IH]; simpl.
  - intros _. by rewrite Ascii.eqb_refl.
  - intros [Ha Hb]%orb_false_elim. by rewrite Ha, IH.
Qed.

Lemma tags_loop_step (tag : string) (rest : list string)
    (tagsMap : gmap string string) :
  tags_loop (tag :: rest) tagsMap
  = match cut_byte tag "=" with
    | Some (name, value) => tags_loop rest (<[name := value]> tagsMap)
    | None => Err (invalid_tag tag)
    end.
Proof.
  cbn [tags_loop]. unfold SplitN_2. by destruct (cut_byte tag "=") as [[]|].
Qed.

Lemma tags_loop_listed (pairs : list (string * string))
    (tagsMap : gmap string string) :
  Forall listable pairs →
  tags_loop (map (λ kv, kv.1 +:+ "=" +:+ kv.2) pairs) tagsMap
  = Ok (assign_all pairs tagsMap).
Proof.
  intros Hall. revert tagsMap.
  induction Hall as [|[name value] pairs (Hname & _ & _) _ IH];
    intros tagsMap; [done|].
  cbn [map]. rewrite tags_loop_step. simpl in *.
  change (name +:+ "=" +:+ value) with (name +:+ String "=" value).
  rewrite cut_byte_first by done. apply IH.
Qed.

(** The [tags] flag that lists one or more pairs [name=value], separated by
    commas, where no name has an [=] or a comma and no value has a comma
    (a value may have an [=]), is parsed into the map that results from
    assigning the pairs in their order: of two pairs with the same name the
    later one stays. *)
Theorem parse_tags_listed (pairs : list (string * string)) :
  pairs ≠ [] →
  Forall listable pairs →
  parse_tags (tags_flag pairs) = Ok (assign_all pairs ∅).
Proof.
  intros Hne Hall. unfold parse_tags, tags_flag.
  assert (Forall (λ part, contains_byte "," part = false)
            (map (λ kv, kv.1 +:+ "=" +:+ kv.2) pairs)) as Hfree.
  { apply Forall_fmap. eapply Forall_impl; [exact Hall|].
    intros [name value] (_ & Hn & Hv). simpl in *.
    by rewrite !contains_byte_app, Hn, Hv. }
  assert (map (λ kv, kv.1 +:+ "=" +:+ kv.2) pairs ≠ []) as Hne'
    by by destruct pairs.
  destruct (String.eqb_spec (Join (map (λ kv, kv.1 +:+ "=" +:+ kv.2) pairs)
                               ",") "") as [Hempty|_].
  - apply (f_equal (λ s, Split s ",")) in Hempty.
    rewrite Split_Join in Hempty by done.
    destruct pairs as [|[name value] [|kv pairs]]; try done.
    simpl in Hempty. injection Hempty as Hempty.
    apply (f_equal String.length) in Hempty.
    rewrite !length_app_s in Hempty. simpl in Hempty. lia.
  - rewrite Split_Join by done. by apply tags_loop_listed.
Qed.

Lemma parse_tags_listed_witness :
  parse_tags "host=a,expr=x=1,host=b"
  = Ok (<["host" := "b"]> (<["expr" := "x=1"]> (<["host" := "a"]> ∅))).
Proof.
  apply (parse_tags_listed [("host", "a"); ("expr", "x=1"); ("host", "b")]).
  - discriminate.
  - repeat constructor.
Defined.

Lemma tags_loop_error (tags : list string) (tagsMap : gmap string string)
    (e : error) :
  tags_loop tags tagsMap = Err e
  ↔ ∃ before tag after,
      tags = before ++ tag :: after
      ∧ Forall (λ t, contains_byte "=" t = true) before
      ∧ contains_byte "=" tag = false
      ∧ e = invalid_tag tag.
Proof.
  revert tagsMap. induction tags as [|tag tags IH]; intros tagsMap.
  { split; [done|]. intros (before & ? & ? & Heq & _). by destruct before. }
  rewrite tags_loop_step.
  destruct (cut_byte tag "=") as [[name value]|] eqn:Hcut.
  - assert (contains_byte "=" tag = true) as Htag.
    { destruct (contains_byte "=" tag) eqn:Hc; [done|].
      apply cut_byte_None in Hc. congruence. }
    rewrite IH. split.
    + intros (before & bad & after & -> & Hb & Hbad & ->).
      exists (tag :: before), bad, after. by repeat constructor.
    + intros (before & bad & after & Heq & Hb & Hbad & ->).
      destruct before as [|t before]; simplify_eq/=; [congruence|].
      apply Forall_cons in Hb as [_ Hb]. by exists before, bad, after.
  - apply cut_byte_None in Hcut. split.
    + intros [= <-]. by exists [], tag, tags.
    + intros (before & bad & after & Heq & Hb & Hbad & ->).
      destruct before as [|t before]; simplify_eq/=; [done|].
      apply Forall_cons in Hb as [Hb _]. congruence.
Qed.

(** Parsing the [tags] flag fails exactly when the flag is not empty and one
    of its pieces between commas has no [=]; the error quotes the first such
    piece.  The empty flag gives the empty map, and a flag that ends with a
    comma is rejected for its empty last piece. *)
Theorem parse_tags_invalid (tagsString : string) :
  parse_tags "" = Ok ∅
  ∧ (∀ e, parse_tags tagsString = Err e
          ↔ tagsString ≠ ""
            ∧ ∃ before tag after,
                Split tagsString "," = before ++ tag :: after
                ∧ Forall (λ t, contains_byte "=" t = true) before
                ∧ contains_byte "=" tag = false
                ∧ e = invalid_tag tag)
  ∧ (∀ flag, ∃ e, parse_tags (flag +:+ ",") = Err e).
Proof.
  split; [done|]. split.
  - intros e. unfold parse_tags.
    destruct (String.eqb_spec tagsString "") as [->|Hne].
    + split; [done|by intros [? _]].
    + rewrite tags_loop_error. split; [done|by intros [_ ?]].
  - intros flag.
    assert (∃ pieces, Split (flag +:+ ",") "," = pieces ++ [""])
      as [pieces Hpieces].
    { assert (∃ piece pieces,
                Split (flag +:+ ",") "," = piece :: pieces ++ [""])
        as (piece & pieces & Hsplit).
      { induction flag as [|a flag (piece & pieces & IH)];
          [by exists "", []|].
        rewrite app_String. cbn [Split]. rewrite IH.
        destruct (Ascii.eqb a ",");
          [by exists "", (piece :: pieces)|by exists (String a piece), pieces].
      }
      by exists (piece :: pieces). }
    unfold parse_tags.
    destruct (String.eqb_spec (flag +:+ ",") "") as [Hempty|_].
    { apply (f_equal String.length) in Hempty.
      rewrite length_app_s in Hempty. simpl in Hempty. lia. }
    rewrite Hpieces. clear Hpieces. generalize (∅ : gmap string string).
    induction pieces as [|piece pieces IH]; intros tagsMap.
    + by eexists.
    + rewrite <-app_comm_cons, tags_loop_step.
      destruct (cut_byte piece "=") as [[]|]; [apply IH|by eexists].
Qed.

Lemma parse_tags_invalid_witness :
  parse_tags "host=a," = Err (invalid_tag "").
Proof.
  apply (proj1 (proj2 (parse_tags_invalid "host=a,"))).
  split; [discriminate|].
  exists ["host=a"], "", []. repeat split. repeat constructor.
Defined.

(** What a command sends for a statistic: the name is the [prefix] flag
    split at its dots, extended by [SubMetric]; serialized right away, it is
    the flag as it was typed, a dot and the lower-cased name of the
    statistic.  The name is never empty, so the serialization does not panic;
    with an empty flag the line begins with a dot. *)
Theorem command_metric_line (unicode : string → string) (grow : nat → nat) (h : list (list string))
    (root : Mem.MetricMetadata) (prefixString name value : string)
    (timestamp : Z) (order : list (string * string)) :
  Mem.wf h (Mem.Name root) →
  Mem.elems h (Mem.Name root) = Split prefixString "." →
  let r := Mem.SubMetric unicode grow h root name (Mem.Tags root) in
  Metric_String order
    {| Metadata := load r.1 r.2; Value := value; Timestamp := timestamp |}
  = Ok (prefixString +:+ "." +:+ ToLower unicode name +:+ tag_clauses order
        +:+ " " +:+ value +:+ " " +:+ Sprint timestamp).
Proof.
  intros Hwf Hsplit r.
  destruct (SubMetric_extends unicode grow h root name (Mem.Tags root) Hwf)
    as (Hchild & _). fold r in Hchild. rewrite Hchild.
  rewrite Metric_String_wire_line by (simpl; by destruct (Mem.elems _ _)).
  unfold wire_line. simpl. rewrite Hsplit.
  rewrite Join_snoc by apply Split_not_nil.
  by rewrite Join_Split, !app_assoc_s.
Qed.

Lemma command_metric_line_witness :
  let r := Mem.SubMetric id (λ c, S (2 * c)) [["servers"; "web1"]]
             {| Mem.Name := {| Mem.ptr := 0; Mem.off := 0; Mem.len := 2;
                               Mem.cap := 2 |};
                Mem.Tags := ∅ |} "Idle" ∅ in
  Metric_String []
    {| Metadata := load r.1 r.2; Value := "7"; Timestamp := 1700000000 |}
  = Ok "servers.web1.idle 7 1700000000".
Proof.
  assert (Mem.wf [["servers"; "web1"]]
            {| Mem.ptr := 0; Mem.off := 0; Mem.len := 2; Mem.cap := 2 |})
    as Hwf by (unfold Mem.wf; simpl; lia).
  exact (command_metric_line id (λ c, S (2 * c)) [["servers"; "web1"]]
           {| Mem.Name := {| Mem.ptr := 0; Mem.off := 0; Mem.len := 2;
                             Mem.cap := 2 |};
              Mem.Tags := ∅ |} "servers.web1" "Idle" "7" 1700000000 []
           Hwf eq_refl).
Defined.

(** ** The loop as a whole *)

Lemma framed_Join (lines : list string) :
  lines ≠ [] → Join lines newline +:+ newline = framed lines.
Proof.
  induction lines as [|x [|y lines] IH]; intros Hne; [done|..].
  - unfold framed, stream. simpl. by rewrite app_empty_r.
  - specialize (IH ltac:(done)). rewrite Join_cons by done.
    unfold framed, stream in *. cbn [map foldr] in *.
    rewrite <-IH. by rewrite !app_assoc_s.
Qed.

Lemma framed_app (l1 l2 : list string) :
  framed (l1 ++ l2) = framed l1 +:+ framed l2.
Proof.
  unfold framed, stream. induction l1 as [|x l1 IH]; [done|].
  cbn [app map foldr]. by rewrite IH, !app_assoc_s.
Qed.

(** On a reliable connection, with no producer at work, a context that is
    not done, named samples in the queue and a batch size of at least 1 that
    the allocation of the batch admits, [Submit] empties the queue and
    then blocks.  The bytes it has written by then are a serialization of
    each queued sample followed by a line feed, in the order of the queue:
    the batch size changes how the bytes are cut into calls of [Write], not
    the bytes. *)
Theorem Submit_drains (n : nat) :
  ∀ (j : nat) (s : nat → schedule) (w : world) (conn : net_Conn),
    (∀ i, quiet (s i)) → (∀ i, fair_orders (s i)) →
    ctx w = None →
    Forall named (queue w) →
    1 ≤ MaxMetricsPerMessage (options (cl w)) ≤ maxSliceCap →
    1 ≤ MaxTries (options (cl w)) →
    Conn (options (cl w)) = Some conn →
    reliable conn →
    (length (queue w) < n)%nat →
    ∃ w' conn' lines msgs,
      Submit n j s w = (w', Blocked)
      ∧ queue w' = []
      ∧ Conn (options (cl w')) = Some conn'
      ∧ written conn' = written conn ++ msgs
      ∧ Forall2 serializes (queue w) lines
      ∧ stream msgs = framed lines.
Proof.
  induction n as [|n IH];
    intros j s w conn Hquiet Hfair Hctx Hnamed HN Htries Hconn Hrel Hlen;
    [lia|].
  unfold Submit. rewrite Hconn. cbn [Submit_loop].
  destruct (queue w) as [|m rest] eqn:Hq.
  - exists w, conn, [], []. unfold Submit_iteration, collect.
    rewrite makeslice_fits_in by lia.
    rewrite env_steps_quiet by done. unfold queue in Hq.
    unfold select_recv. rewrite Hq, Hctx.
    repeat split; try done. by rewrite app_nil_r.
  - destruct (collect_calm (s j) w (Hquiet j) (Hfair j))
      as (w1 & lines1 & Hrun & Hlen1 & Hser1 & Hq1 & Hc1 & Ho1);
      [done|done|by rewrite Hq|by rewrite Hq|].
    rewrite Hq in Hlen1, Hser1, Hq1.
    pose proof (collect_terminated _ _ _ _ Hrun) as (Hne1 & Hterm).
    set (msg := Join lines1 newline +:+ newline) in *.
    assert (SubmitMetricsString (cl w1) (Join lines1 newline)
            = (set_conn (wrote conn 1 msg) (cl w1), Ok tt)) as Hsubmit.
    { unfold SubmitMetricsString. rewrite Ho1, Hconn, Hterm.
      by rewrite (write_loop_succeeds msg 0) by (lia || done || apply Hrel). }
    unfold Submit_iteration. rewrite Hrun, Hsubmit.
    destruct (IH (S j) s
                {| ctx := ctx w1; cl := set_conn (wrote conn 1 msg) (cl w1) |}
                (wrote conn 1 msg))
      as (w' & conn' & lines2 & msgs2 & Hsub & Hq' & Hconn' & Hw' & Hser2
          & Hstream); try done.
    { change (Forall named (queue w1)). rewrite Hq1. by apply Forall_drop. }
    { simpl. by rewrite Ho1. }
    { simpl. by rewrite Ho1. }
    { change (length (queue w1) < n)%nat. rewrite Hq1, length_drop.
      assert (1 ≤ length lines1)%nat
        by (destruct lines1; [by destruct Hne1|simpl; lia]).
      simpl in *. lia. }
    assert (Submit n (S j) s
              {| ctx := ctx w1; cl := set_conn (wrote conn 1 msg) (cl w1) |}
            = Submit_loop n (S j) s
                {| ctx := ctx w1; cl := set_conn (wrote conn 1 msg) (cl w1) |})
      as Hloop by reflexivity.
    rewrite Hloop in Hsub.
    exists w', conn', (lines1 ++ lines2), (msg :: msgs2).
    split; [done|]. split; [done|]. split; [done|]. split; [|split].
    + rewrite Hw'. simpl. by rewrite <-app_assoc.
    + rewrite <-(take_drop (length lines1) (m :: rest)).
      apply Forall2_app; [done|].
      change (Forall2 serializes (queue w1) lines2) in Hser2.
      by rewrite Hq1 in Hser2.
    + rewrite framed_app. cbn [stream foldr]. fold (stream msgs2).
      rewrite Hstream. by rewrite <-(framed_Join lines1).
Qed.

Lemma Submit_drains_witness :
  ∃ w' conn' lines msgs,
    Submit 4 0 (λ _, calm) three_queued = (w', Blocked)
    ∧ queue w' = []
    ∧ Conn (options (cl w')) = Some conn'
    ∧ written conn' = written healthy ++ msgs
    ∧ Forall2 serializes (queue three_queued) lines
    ∧ stream msgs = framed lines.
Proof.
  apply (Submit_drains 4 0 (λ _, calm) three_queued healthy).
  - intros i k. reflexivity.
  - intros i k tags. unfold range_order. reflexivity.
  - reflexivity.
  - repeat constructor; discriminate.
  - rewrite maxSliceCap_value. simpl. lia.
  - simpl. lia.
  - reflexivity.
  - intros history b. reflexivity.
  - simpl. lia.
Defined.

(** With a connection, a batch size that is not negative and that the
    allocation of the batch admits, an empty queue, no producer at work and a
    context that is done, [Submit] returns at once, whatever number of iterations it may run: it
    changes nothing, writes nothing, and its error wraps the error of the
    context. *)
Theorem Submit_cancelled_when_idle (n j : nat) (s : nat → schedule)
    (w : world) (e : error) :
  quiet (s j) →
  Conn (options (cl w)) ≠ None →
  0 ≤ MaxMetricsPerMessage (options (cl w)) ≤ maxSliceCap →
  queue w = [] →
  ctx w = Some e →
  Submit (S n) j s w = (w, Return (cancelled_error e))
  ∧ Unwrap (cancelled_error e) = Some e.
Proof.
  intros Hquiet Hconn HN Hq Hctx. split; [|done].
  apply Submit_stops; [done|]. unfold Submit_iteration, collect.
  rewrite makeslice_fits_in by lia.
  rewrite env_steps_quiet by done. unfold queue in Hq.
  unfold select_recv. by rewrite Hq, Hctx.
Qed.

Lemma Submit_cancelled_when_idle_witness :
  Submit 3 0 (λ _, calm) {| ctx := Some context_Canceled; cl := idle_client |}
  = ({| ctx := Some context_Canceled; cl := idle_client |},
     Return (cancelled_error context_Canceled)).
Proof.
  apply (Submit_cancelled_when_idle 2 0 (λ _, calm)
           {| ctx := Some context_Canceled; cl := idle_client |}
           context_Canceled).
  - intros i. reflexivity.
  - discriminate.
  - rewrite maxSliceCap_value. simpl. lia.
  - reflexivity.
  - reflexivity.
Defined.

(** Read right after the call, the child that [SubMetric] returns has the
    parent's name followed by the lower-cased segment, and the tags that were
    passed; the parent reads as before; and when the parent's slice is full
    the child's name lies in a backing array of its own. *)
Theorem SubMetric_reads (unicode : string → string) (grow : nat → nat) (h : list (list string))
    (m : Mem.MetricMetadata) (name : string) (tags : gmap string string) :
  Mem.wf h (Mem.Name m) →
  let r := Mem.SubMetric unicode grow h m name tags in
  load r.1 r.2
  = {| Name := Name (load h m) ++ [ToLower unicode name]; Tags := tags |}
  ∧ load r.1 m = load h m
  ∧ (Mem.len (Mem.Name m) = Mem.cap (Mem.Name m) →
     Mem.ptr (Mem.Name r.2) = length h).
Proof. exact (SubMetric_extends unicode grow h m name tags). Qed.

Lemma SubMetric_reads_witness :
  load (Mem.SubMetric id (λ c, S (2 * c)) cpu0_heap cpu0 "User" ∅).1
    (Mem.SubMetric id (λ c, S (2 * c)) cpu0_heap cpu0 "User" ∅).2
  = {| Name := Name (load cpu0_heap cpu0) ++ ["user"]; Tags := ∅ |}.
Proof.
  assert (Mem.wf cpu0_heap (Mem.Name cpu0)) as Hwf
    by (unfold Mem.wf; simpl; lia).
  exact (proj1 (SubMetric_reads id (λ c, S (2 * c)) cpu0_heap cpu0 "User" ∅
                  Hwf)).
Defined.
